(** * Art Namer: a verification development

    A shallow embedding of the batch image-naming application
    ([App.tsx], [services/geminiService.ts]) and the properties of its
    per-image pipeline: ingestion, generation fan-out with ordered
    application of results, clipboard listing, and the cleaning of the
    text returned by the generation service. *)

From Stdlib Require Import NArith ZArith String Ascii DecimalString Lia.
From stdpp Require Import base option list gmap.

Local Open Scope N_scope.

(** ** JavaScript strings

    A JavaScript string is a finite sequence of UTF-16 code units.  The
    methods below are the ones the application calls, restricted to the
    argument shapes it uses (single-character separators and needles). *)

Abbreviation jsstring := (list N).

Module JS.

(** An ASCII literal as a sequence of code units. *)
Fixpoint lit (s : string) : jsstring :=
  match s with
  | EmptyString => []
  | String a r => N_of_ascii a :: lit r
  end.

Definition dquote : N := 34.
Definition squote : N := 39.
Definition slash : N := 47.
Definition qmark : N := 63.
Definition comma : N := 44.
Definition newline : N := 10.

(** ECMAScript [WhiteSpace] and [LineTerminator] code units, the ones
    [String.prototype.trim] removes. *)
Definition isWhiteSpace (c : N) : bool :=
  (c =? 9) || (c =? 10) || (c =? 11) || (c =? 12) || (c =? 13) || (c =? 32)
  || (c =? 160) || (c =? 5760) || ((8192 <=? c) && (c <=? 8202))
  || (c =? 8232) || (c =? 8233) || (c =? 8239) || (c =? 8287)
  || (c =? 12288) || (c =? 65279).

Fixpoint trimStart (s : jsstring) : jsstring :=
  match s with
  | [] => []
  | c :: r => if isWhiteSpace c then trimStart r else s
  end.

Fixpoint trimEnd (s : jsstring) : jsstring :=
  match s with
  | [] => []
  | c :: r =>
      match trimEnd r with
      | [] => if isWhiteSpace c then [] else [c]
      | r' => c :: r'
      end
  end.

Definition trim (s : jsstring) : jsstring := trimEnd (trimStart s).

(** [s.split(sep)] for a one-character separator; the empty string
    splits into one empty segment. *)
Fixpoint split (sep : N) (s : jsstring) : list jsstring :=
  match s with
  | [] => [[]]
  | c :: r =>
      if c =? sep then [] :: split sep r
      else match split sep r with
           | [] => [[c]]
           | h :: t => (c :: h) :: t
           end
  end.

(** [parts.join(sep)]. *)
Fixpoint join (sep : jsstring) (parts : list jsstring) : jsstring :=
  match parts with
  | [] => []
  | [p] => p
  | p :: rest => p ++ sep ++ join sep rest
  end.

(** [s.lastIndexOf(c)] for a one-character needle: the greatest index
    holding [c], or -1. *)
Fixpoint lastIndexOf_from (i : Z) (c : N) (s : jsstring) : Z :=
  match s with
  | [] => (-1)%Z
  | d :: r =>
      let k := lastIndexOf_from (i + 1) c r in
      if (0 <=? k)%Z then k else if d =? c then i else (-1)%Z
  end.

Definition lastIndexOf (c : N) (s : jsstring) : Z := lastIndexOf_from 0 c s.

(** [s.substring(start)]: a negative start counts as 0, one past the end
    as the length. *)
Definition substring (start : Z) (s : jsstring) : jsstring :=
  drop (Z.to_nat (Z.max 0 start)) s.

Fixpoint startsWith (p s : jsstring) : bool :=
  match p, s with
  | [], _ => true
  | _ :: _, [] => false
  | a :: p', b :: s' => (a =? b) && startsWith p' s'
  end.

(** A text is well formed when it holds no lone surrogate: a code unit
    in D800-DBFF is followed by one in DC00-DFFF, and a code unit in
    DC00-DFFF only ever follows one in D800-DBFF.  [encodeURIComponent]
    throws a [URIError] on every other text. *)
Definition isHighSurrogate (c : N) : bool := (55296 <=? c) && (c <=? 56319).
Definition isLowSurrogate (c : N) : bool := (56320 <=? c) && (c <=? 57343).

Fixpoint isWellFormed (s : jsstring) : bool :=
  match s with
  | [] => true
  | c :: r =>
      if isHighSurrogate c then
        match r with
        | d :: r' => isLowSurrogate d && isWellFormed r'
        | [] => false
        end
      else if isLowSurrogate c then false
      else isWellFormed r
  end.

(** Truthiness of a string: every string but the empty one. *)
Definition truthy (s : jsstring) : bool :=
  match s with [] => false | _ :: _ => true end.

(** [a || b] on strings. *)
Definition or_else (a b : jsstring) : jsstring := if truthy a then a else b.

(** Truthiness of a possibly undefined string. *)
Definition truthy_opt (o : option jsstring) : bool :=
  match o with Some s => truthy s | None => false end.

(** A possibly undefined string inside a template literal. *)
Definition template (o : option jsstring) : jsstring :=
  match o with Some s => s | None => lit "undefined" end.

(** Decimal rendering of a natural number, as a template literal prints
    an array length. *)
Definition decimal (n : nat) : jsstring :=
  lit (NilEmpty.string_of_uint (Nat.to_uint n)).

(** *** The regular expression [/^["']|["']$/g]

    Both alternatives consume exactly one code unit, so a global
    replacement by the empty string scans the positions from the left
    and deletes the code unit at position [i] exactly when it is a quote
    and either [i] is the start of the input (first alternative) or
    [i + 1] is its end (second alternative). *)
Definition isQuote (c : N) : bool := (c =? dquote) || (c =? squote).

Definition quoteRegexMatchesAt (i len : nat) (c : N) : bool :=
  isQuote c && (Nat.eqb i 0 || Nat.eqb (S i) len).

Fixpoint replaceQuoteRegex_from (i len : nat) (s : jsstring) : jsstring :=
  match s with
  | [] => []
  | c :: r =>
      if quoteRegexMatchesAt i len c
      then replaceQuoteRegex_from (S i) len r
      else c :: replaceQuoteRegex_from (S i) len r
  end.

(** [text.replace(/^["']|["']$/g, '')]. *)
Definition replaceQuoteRegex (s : jsstring) : jsstring :=
  replaceQuoteRegex_from 0 (length s) s.

End JS.

(** ** The naming request client ([services/geminiService.ts]) *)

Inductive NameStyle := Artistic | Descriptive | ModernEdgy.

#[global] Instance NameStyle_eq_dec : EqDecision NameStyle.
Proof. solve_decision. Defined.

Definition getPromptForStyle (style : NameStyle) : jsstring :=
  match style with
  | Artistic =>
      JS.lit "You are a poetic and insightful art curator. Your task is to give a single, compelling title for the provided artwork. Do not provide any commentary, explanation, or quotation marks. Return only the title itself."
  | Descriptive =>
      JS.lit "You are a literal and precise cataloger. Your task is to give a single, simple, and descriptive title for the image provided. Do not provide any commentary, explanation, or quotation marks. Return only the title itself."
  | ModernEdgy =>
      JS.lit "You are a modern branding expert. Your task is to give a single, short, edgy, and memorable name for the item in the image. Think of a cool product name. Do not provide commentary, explanation, or quotation marks. Return only the title itself."
  end.

(** The argument of [ai.models.generateContent]. The image data is the
    caller's [base64] field, which is [undefined] ([None]) when the data
    URL it was cut from had no comma. *)
Record GenerateContentRequest := {
  model : jsstring;
  inlineData_data : option jsstring;
  inlineData_mimeType : jsstring;
  text : jsstring;
}.

#[global] Instance GenerateContentRequest_eq_dec : EqDecision GenerateContentRequest.
Proof. solve_decision. Defined.

(** How the awaited service call ends: a response carrying a text, or
    anything that throws inside the [try] block (the call rejects, or the
    response has no text to trim). *)
Inductive ServiceOutcome :=
  | ResponseText (t : jsstring)
  | ServiceThrows.

Definition friendlyError : jsstring :=
  JS.lit "Failed to generate a name. The AI may be experiencing high traffic or the image could not be processed.".

(** [generateArtName] up to its [await]: the request it sends. *)
Definition generateArtName_request
    (base64Data : option jsstring) (mimeType : jsstring) (style : NameStyle)
  : GenerateContentRequest :=
  {| model := JS.lit "gemini-2.5-flash";
     inlineData_data := base64Data;
     inlineData_mimeType := mimeType;
     text := getPromptForStyle style |}.

(** The two statements after the [await]:
    [const text = response.text.trim();
     return text.replace(/^["']|["']$/g, '');] *)
Definition cleanName (responseText : jsstring) : jsstring :=
  JS.replaceQuoteRegex (JS.trim responseText).

(** [generateArtName] from its [await] on: [inl name] when the promise
    resolves, [inr message] when it rejects. *)
Definition generateArtName_settle (o : ServiceOutcome) : jsstring + jsstring :=
  match o with
  | ResponseText t => inl (cleanName t)
  | ServiceThrows => inr friendlyError
  end.

(** ** The data model ([App.tsx]) *)

Inductive ImageStatus := queued | generating | completed | error.

#[global] Instance ImageStatus_eq_dec : EqDecision ImageStatus.
Proof. solve_decision. Defined.

(** [ProcessedImage]. An optional field is [None] when it is absent;
    [base64] is the second segment of a data URL and is [undefined]
    ([None]) when the data URL holds no comma. *)
Module ProcessedImage.
Record t := mk {
  id : jsstring;
  base64 : option jsstring;
  mimeType : jsstring;
  name : jsstring;
  status : ImageStatus;
  suggestedName : option jsstring;
  error : option jsstring;
}.
End ProcessedImage.

#[global] Instance ProcessedImage_eq_dec : EqDecision ProcessedImage.t.
Proof. solve_decision. Defined.

(** The React state of [App]. *)
Module App.
Record t := mk {
  images : list ProcessedImage.t;
  isLoading : bool;
  error : jsstring;
  copiedStates : gmap jsstring bool;
  urlInput : jsstring;
  isFetchingUrl : bool;
  nameStyle : NameStyle;
}.

Definition initial : t :=
  {| images := []; isLoading := false; error := []; copiedStates := ∅;
     urlInput := []; isFetchingUrl := false; nameStyle := Artistic |}.

(** The state setters; [setImages] and [setCopiedStates] take the
    updater function, as the code passes one. *)
Definition setImages (f : list ProcessedImage.t → list ProcessedImage.t) (s : t) : t :=
  mk (f (images s)) (isLoading s) (error s) (copiedStates s) (urlInput s)
     (isFetchingUrl s) (nameStyle s).
Definition setIsLoading (b : bool) (s : t) : t :=
  mk (images s) b (error s) (copiedStates s) (urlInput s) (isFetchingUrl s)
     (nameStyle s).
Definition setError (e : jsstring) (s : t) : t :=
  mk (images s) (isLoading s) e (copiedStates s) (urlInput s) (isFetchingUrl s)
     (nameStyle s).
Definition setCopiedStates (f : gmap jsstring bool → gmap jsstring bool) (s : t) : t :=
  mk (images s) (isLoading s) (error s) (f (copiedStates s)) (urlInput s)
     (isFetchingUrl s) (nameStyle s).
Definition setUrlInput (u : jsstring) (s : t) : t :=
  mk (images s) (isLoading s) (error s) (copiedStates s) u (isFetchingUrl s)
     (nameStyle s).
Definition setIsFetchingUrl (b : bool) (s : t) : t :=
  mk (images s) (isLoading s) (error s) (copiedStates s) (urlInput s) b
     (nameStyle s).
Definition setNameStyle (n : NameStyle) (s : t) : t :=
  mk (images s) (isLoading s) (error s) (copiedStates s) (urlInput s)
     (isFetchingUrl s) n.
End App.

(** ** Image source adapter: local files

    What the environment decides is an input of the model: the outcome
    of each [FileReader] and the value the expression
    [`${Date.now()}-${Math.random()}`] takes for each item. *)

Module File.
Record t := mk { name : jsstring; type : jsstring }.
End File.

Inductive ReadResult :=
  | Loaded (result : jsstring)   (* [onloadend] with a data URL *)
  | ReadFails.                   (* [onerror] *)

(** One file of the [FileList], with what the environment decides for
    it: how its read ends if it is read, and the id its item draws if
    the batch resolves. *)
Record FileRead := {
  read_file : File.t;
  read_result : ReadResult;
  read_id : jsstring;
}.

Definition imagePrefix : jsstring := JS.lit "image/".

(** [(reader.result as string).split(',')[1]] *)
Definition base64OfDataUrl (dataUrl : jsstring) : option jsstring :=
  JS.split JS.comma dataUrl !! 1%nat.

(** [file.type.startsWith('image/')]: a file of another type gets no
    promise ([null] in [filePromises]) and is never read. *)
Definition accepted (r : FileRead) : bool :=
  JS.startsWith imagePrefix (File.type (read_file r)).

(** The promise of one accepted file: resolves to the item fields, or
    rejects with [new Error(`Failed to read file: ${file.name}`)]. *)
Definition filePromise (r : FileRead) : ProcessedImage.t + jsstring :=
  match read_result r with
  | Loaded dataUrl =>
      inl {| ProcessedImage.id := read_id r;
             ProcessedImage.base64 := base64OfDataUrl dataUrl;
             ProcessedImage.mimeType := File.type (read_file r);
             ProcessedImage.name := File.name (read_file r);
             ProcessedImage.status := queued;
             ProcessedImage.suggestedName := None;
             ProcessedImage.error := None |}
  | ReadFails =>
      inr (JS.lit "Failed to read file: " ++ File.name (read_file r))
  end.

(** [Promise.all]: the list of all values, or the reason of a rejected
    promise. When several promises reject, the reason is that of the one
    that rejects first; the model lists the promises so that this is the
    first rejected one of the list. *)
Fixpoint promiseAll {A E} (ps : list (A + E)) : list A + E :=
  match ps with
  | [] => inl []
  | inr e :: _ => inr e
  | inl a :: rest =>
      match promiseAll rest with
      | inl l => inl (a :: l)
      | inr e => inr e
      end
  end.

(** [processFiles], synchronous part: [if (!files) return; setError('')]
    and the start of the reads. *)
Definition processFiles (files : option (list File.t)) (s : App.t) : App.t :=
  match files with
  | None => s
  | Some _ => App.setError [] s
  end.

(** [filePromises.filter(p => p !== null)] *)
Definition filePromises (reads : list FileRead)
  : list (ProcessedImage.t + jsstring) :=
  filePromise <$> List.filter accepted reads.

(** [processFiles], the [.then(...).catch(...)] on [Promise.all]. *)
Definition processFiles_settled (reads : list FileRead) (s : App.t) : App.t :=
  match promiseAll (filePromises reads) with
  | inl processedImages => App.setImages (λ prev, prev ++ processedImages) s
  | inr message => App.setError message s
  end.

(** [handleDrop] *)
Definition handleDrop (files : option (list File.t)) (s : App.t) : App.t :=
  if App.isLoading s || App.isFetchingUrl s then s else processFiles files s.

(** ** Image source adapter: remote URLs *)

Record FetchResponse := {
  ok : bool;
  status_code : nat;
  contentType : option jsstring;    (* [response.headers.get('content-type')] *)
  blob_type : jsstring;
  blob_read : ReadResult;
}.

(** One promise of [urlPromises]: the URL, whether [new URL(url)]
    accepts it, what [fetch] returns ([None] when it throws), and the id
    drawn on success. *)
Record UrlFetch := {
  url : jsstring;
  url_parses : bool;
  response : option FetchResponse;
  fetch_id : jsstring;
}.

(** [url.substring(url.lastIndexOf('/') + 1).split('?')[0] || 'image-from-url'] *)
Definition fileNameOfUrl (url : jsstring) : jsstring :=
  JS.or_else
    (default [] (head (JS.split JS.qmark
       (JS.substring (JS.lastIndexOf JS.slash url + 1) url))))
    (JS.lit "image-from-url").

(** The [try { ... } catch (err) { ... }] of the
    [urls.map(async (url) => ...)] callback: the queued item, or the
    [{ url, error }] object, of which only [url] is read. *)
Definition urlPromise_caught (u : UrlFetch) : ProcessedImage.t + jsstring :=
  if negb (url_parses u) then inr (url u) else
  match response u with
  | None => inr (url u)
  | Some r =>
      if negb (ok r) then inr (url u) else
      match contentType r with
      | None => inr (url u)
      | Some ct =>
          if negb (JS.truthy ct) || negb (JS.startsWith imagePrefix ct)
          then inr (url u) else
          match blob_read r with
          | ReadFails => inr (url u)
          | Loaded dataUrl =>
              inl {| ProcessedImage.id := fetch_id u;
                     ProcessedImage.base64 := base64OfDataUrl dataUrl;
                     ProcessedImage.mimeType := blob_type r;
                     ProcessedImage.name := fileNameOfUrl (url u);
                     ProcessedImage.status := queued;
                     ProcessedImage.suggestedName := None;
                     ProcessedImage.error := None |}
          end
      end
  end.

(** What the callback's promise rejects with when the statement before
    the [try], [encodeURIComponent(url)], throws. *)
Inductive URIError := URIMalformed.

(** The whole callback: its first statement builds the relay URL with
    [encodeURIComponent(url)], outside the [try]; when that throws
    the promise rejects, otherwise it resolves to what the [try] and
    its [catch] return. *)
Definition urlPromise (u : UrlFetch)
  : (ProcessedImage.t + jsstring) + URIError :=
  if JS.isWellFormed (url u) then inl (urlPromise_caught u)
  else inr URIMalformed.

Definition successfulFetches (results : list (ProcessedImage.t + jsstring))
  : list ProcessedImage.t :=
  omap (λ r, match r with inl img => Some img | inr _ => None end) results.

Definition failedFetches (results : list (ProcessedImage.t + jsstring))
  : list jsstring :=
  omap (λ r, match r with inl _ => None | inr u => Some u end) results.

Definition fetchErrorMessage (failed : list jsstring) : jsstring :=
  JS.lit "Could not fetch " ++ JS.decimal (length failed)
  ++ JS.lit " image(s). The proxy may have failed or the URL is invalid."
  ++ [JS.newline; JS.newline]
  ++ JS.lit "Please try downloading these images to your device and uploading them directly."
  ++ [JS.newline; JS.newline]
  ++ JS.lit "Failed URLs:" ++ [JS.newline]
  ++ JS.join [JS.newline] (fmap (λ u, JS.lit "- " ++ u) failed).

(** [urlInput.split('\n').map(u => u.trim()).filter(Boolean)] *)
Definition urlsOfInput (urlInput : jsstring) : list jsstring :=
  List.filter JS.truthy (fmap JS.trim (JS.split JS.newline urlInput)).

(** [handleFetchFromUrls] up to [await Promise.all(urlPromises)]. *)
Definition handleFetchFromUrls (s : App.t) : App.t :=
  match urlsOfInput (App.urlInput s) with
  | [] => App.setError (JS.lit "Please enter at least one image URL.") s
  | _ :: _ => App.setError [] (App.setIsFetchingUrl true s)
  end.

(** [handleFetchFromUrls] from [await Promise.all(urlPromises)] on.
    When a promise rejects the [await] throws and the handler ends
    there: no statement after it runs. *)
Definition handleFetchFromUrls_settled (fetches : list UrlFetch) (s : App.t) : App.t :=
  match promiseAll (urlPromise <$> fetches) with
  | inr _ => s
  | inl results =>
      let s1 :=
        match successfulFetches results with
        | [] => s
        | ok :: oks => App.setImages (λ prev, prev ++ ok :: oks) s
        end in
      let s2 :=
        match failedFetches results with
        | [] => s1
        | f :: fs => App.setError (fetchErrorMessage (f :: fs)) s1
        end in
      App.setIsFetchingUrl false (App.setUrlInput [] s2)
  end.

(** ** Batch orchestrator *)

(** The object a generation promise resolves to:
    [{ id, status: 'completed', suggestedName: name }] or
    [{ id, status: 'error', error: message }]. *)
Inductive GenerationResult :=
  | ResultCompleted (id : jsstring) (suggestedName : jsstring)
  | ResultError (id : jsstring) (message : jsstring).

#[global] Instance GenerationResult_eq_dec : EqDecision GenerationResult.
Proof. solve_decision. Defined.

Definition result_id (r : GenerationResult) : jsstring :=
  match r with ResultCompleted i _ | ResultError i _ => i end.

Definition result_status (r : GenerationResult) : ImageStatus :=
  match r with ResultCompleted _ _ => completed | ResultError _ _ => error end.

(** [{ ...img, ...result }]: the keys of [result] override, the other
    fields of [img] stay. *)
Definition spreadResult (img : ProcessedImage.t) (r : GenerationResult)
  : ProcessedImage.t :=
  match r with
  | ResultCompleted i n =>
      ProcessedImage.mk i (ProcessedImage.base64 img)
        (ProcessedImage.mimeType img) (ProcessedImage.name img)
        completed (Some n) (ProcessedImage.error img)
  | ResultError i m =>
      ProcessedImage.mk i (ProcessedImage.base64 img)
        (ProcessedImage.mimeType img) (ProcessedImage.name img)
        error (ProcessedImage.suggestedName img) (Some m)
  end.

(** [prev.map(img => img.id === result.id ? { ...img, ...result } : img)] *)
Definition applyResult (r : GenerationResult) (prev : list ProcessedImage.t)
  : list ProcessedImage.t :=
  fmap (λ img, if decide (ProcessedImage.id img = result_id r)
              then spreadResult img r else img) prev.

(** [{ ...img, status: 'generating' }] *)
Definition markGenerating (img : ProcessedImage.t) : ProcessedImage.t :=
  ProcessedImage.mk (ProcessedImage.id img) (ProcessedImage.base64 img)
    (ProcessedImage.mimeType img) (ProcessedImage.name img) generating
    (ProcessedImage.suggestedName img) (ProcessedImage.error img).

(** [prev.map(img => img.status === 'queued' ? { ...img, status: 'generating' } : img)] *)
Definition flipQueued (prev : list ProcessedImage.t) : list ProcessedImage.t :=
  fmap (λ img, if decide (ProcessedImage.status img = queued)
              then markGenerating img else img) prev.

(** [images.filter(img => img.status === 'queued')] *)
Definition queuedImages (images : list ProcessedImage.t) : list ProcessedImage.t :=
  filter (λ img, ProcessedImage.status img = queued) images.

(** [prev.filter(img => img.id !== id)] *)
Definition removeImage (id : jsstring) (s : App.t) : App.t :=
  App.setImages (filter (λ img, ProcessedImage.id img ≠ id)) s.

Definition clearAll (s : App.t) : App.t :=
  App.setCopiedStates (λ _, ∅)
    (App.setIsLoading false (App.setError [] (App.setImages (λ _, []) s))).

(** *** What the handlers do to the outside, and what the model records

    [GenerateContent h req] is one call of [ai.models.generateContent];
    [h] names the call so that its outcome can be delivered later.
    [ImagesUpdated r] records one execution of the [setImages] of the
    result loop, in the order the executions happen. *)
Inductive TimerCallback :=
  | CopiedFalse (id : jsstring)    (* [prev => ({ ...prev, [id]: false })] *)
  | CopiedAllFalse.                (* [{ all: false }] *)

Inductive Effect :=
  | GenerateContent (h : nat) (req : GenerateContentRequest)
  | ImagesUpdated (r : GenerationResult)
  | ClipboardWriteText (t : jsstring)
  | SetTimeout (cb : TimerCallback) (ms : N).

#[global] Instance TimerCallback_eq_dec : EqDecision TimerCallback.
Proof. solve_decision. Defined.
#[global] Instance Effect_eq_dec : EqDecision Effect.
Proof. solve_decision. Defined.

Definition allKey : jsstring := JS.lit "all".

Definition handleCopyToClipboard (id text : jsstring) (s : App.t)
  : App.t * list Effect :=
  (App.setCopiedStates (λ prev, <[id := true]> prev) s,
   [ClipboardWriteText text; SetTimeout (CopiedFalse id) 2000]).

(** The text [handleCopyAll] builds. *)
Definition textToCopy (images : list ProcessedImage.t) : jsstring :=
  JS.join [JS.newline]
    (fmap (λ img, ProcessedImage.name img ++ JS.lit ": "
                 ++ JS.template (ProcessedImage.suggestedName img))
       (List.filter
          (λ img, bool_decide (ProcessedImage.status img = completed)
                  && JS.truthy_opt (ProcessedImage.suggestedName img))
          images)).

Definition handleCopyAll (s : App.t) : App.t * list Effect :=
  let t := textToCopy (App.images s) in
  if JS.truthy t
  then (App.setCopiedStates (λ _, {[ allKey := true ]}) s,
        [ClipboardWriteText t; SetTimeout CopiedAllFalse 2000])
  else (s, []).

Definition runTimer (cb : TimerCallback) (s : App.t) : App.t :=
  match cb with
  | CopiedFalse id => App.setCopiedStates (λ prev, <[id := false]> prev) s
  | CopiedAllFalse => App.setCopiedStates (λ _, {[ allKey := false ]}) s
  end.

(** *** Generate all

    The handler runs to its first [await] when it is invoked; it then
    owns a list of generation promises and a [for] loop suspended on the
    first of them.  The application as a whole is the React state
    together with the suspended loops. *)
Record GenerationPromise := {
  handle : nat;                        (* the service call it awaits *)
  promise_id : jsstring;               (* [image.id] *)
  settled : option GenerationResult;   (* [None] while pending *)
}.

Record World := {
  app : App.t;
  loops : list (list GenerationPromise);   (* promises each loop has still to await *)
  nextHandle : nat;
}.

Definition initialWorld : World :=
  {| app := App.initial; loops := []; nextHandle := 0 |}.

Definition withApp (f : App.t → App.t) (w : World) : World :=
  {| app := f (app w); loops := loops w; nextHandle := nextHandle w |}.

(** The [try]/[catch] around [await generateArtName(...)]. *)
Definition generationResult (id : jsstring) (o : ServiceOutcome) : GenerationResult :=
  match generateArtName_settle o with
  | inl name => ResultCompleted id name
  | inr message => ResultError id message
  end.

(** [handleGenerateAllNames] up to the first [await promise]. *)
Definition handleGenerateAllNames (w : World) : World * list Effect :=
  let imagesToProcess := queuedImages (App.images (app w)) in
  match imagesToProcess with
  | [] => (w, [])
  | _ :: _ =>
      let s := App.setImages flipQueued
                 (App.setError [] (App.setIsLoading true (app w))) in
      let generationPromises :=
        imap (λ k image,
                {| handle := nextHandle w + k;
                   promise_id := ProcessedImage.id image;
                   settled := None |}) imagesToProcess in
      let calls :=
        imap (λ k image,
                GenerateContent (nextHandle w + k)
                  (generateArtName_request (ProcessedImage.base64 image)
                     (ProcessedImage.mimeType image)
                     (App.nameStyle (app w)))) imagesToProcess in
      ({| app := s;
          loops := loops w ++ [generationPromises];
          nextHandle := nextHandle w + length imagesToProcess |},
       calls)
  end.

(** The service call [h] ends with outcome [o]: the promise awaiting it
    settles (a promise settles once). *)
Definition settlePromise (h : nat) (o : ServiceOutcome) (p : GenerationPromise)
  : GenerationPromise :=
  if decide (handle p = h) then
    match settled p with
    | None => {| handle := handle p; promise_id := promise_id p;
                 settled := Some (generationResult (promise_id p) o) |}
    | Some _ => p
    end
  else p.

(** The loop [for (const promise of generationPromises)] takes the
    results of the settled promises at its front, in order, and stops at
    the first pending one. *)
Fixpoint awaitSettled (ps : list GenerationPromise)
  : list GenerationResult * list GenerationPromise :=
  match ps with
  | [] => ([], [])
  | p :: rest =>
      match settled p with
      | Some r => let '(rs, ps') := awaitSettled rest in (r :: rs, ps')
      | None => ([], ps)
      end
  end.

(** One loop resumes: each result it takes is applied with [setImages];
    when no promise is left it runs [setIsLoading(false)] and ends. *)
Definition resumeLoop (ps : list GenerationPromise) (s : App.t)
  : list (list GenerationPromise) * App.t * list Effect :=
  let '(rs, ps') := awaitSettled ps in
  let s' := foldl (λ s r, App.setImages (applyResult r) s) s rs in
  match ps' with
  | [] => ([], App.setIsLoading false s', fmap ImagesUpdated rs)
  | _ :: _ => ([ps'], s', fmap ImagesUpdated rs)
  end.

Fixpoint resumeLoops (ls : list (list GenerationPromise)) (s : App.t)
  : list (list GenerationPromise) * App.t * list Effect :=
  match ls with
  | [] => ([], s, [])
  | ps :: rest =>
      let '(l1, s1, e1) := resumeLoop ps s in
      let '(l2, s2, e2) := resumeLoops rest s1 in
      (l1 ++ l2, s2, e1 ++ e2)
  end.

Definition serviceSettled (h : nat) (o : ServiceOutcome) (w : World)
  : World * list Effect :=
  let '(ls, s, es) :=
    resumeLoops (fmap (M:=list) (fmap (M:=list) (settlePromise h o)) (loops w))
      (app w) in
  ({| app := s; loops := ls; nextHandle := nextHandle w |}, es).

(** *** Events

    Everything that makes the application run: the user's actions, and
    the completions of what earlier actions started. *)
Inductive Event :=
  | FileChange (files : option (list File.t))
  | Drop (files : option (list File.t))
  | FilesSettled (reads : list FileRead)
  | UrlInputChange (value : jsstring)
  | FetchFromUrls
  | UrlsSettled (fetches : list UrlFetch)
  | NameStyleChange (style : NameStyle)
  | DismissError
  | GenerateAllNames
  | ServiceSettled (h : nat) (o : ServiceOutcome)
  | CopyToClipboard (id text : jsstring)
  | CopyAll
  | TimerFires (cb : TimerCallback)
  | RemoveImage (id : jsstring)
  | ClearAll.

Definition step (w : World) (ev : Event) : World * list Effect :=
  match ev with
  | FileChange files => (withApp (processFiles files) w, [])
  | Drop files => (withApp (handleDrop files) w, [])
  | FilesSettled reads => (withApp (processFiles_settled reads) w, [])
  | UrlInputChange v => (withApp (App.setUrlInput v) w, [])
  | FetchFromUrls => (withApp handleFetchFromUrls w, [])
  | UrlsSettled fetches => (withApp (handleFetchFromUrls_settled fetches) w, [])
  | NameStyleChange n => (withApp (App.setNameStyle n) w, [])
  | DismissError => (withApp (App.setError []) w, [])
  | GenerateAllNames => handleGenerateAllNames w
  | ServiceSettled h o => serviceSettled h o w
  | CopyToClipboard id t =>
      let '(s, es) := handleCopyToClipboard id t (app w) in
      (withApp (λ _, s) w, es)
  | CopyAll =>
      let '(s, es) := handleCopyAll (app w) in
      (withApp (λ _, s) w, es)
  | TimerFires cb => (withApp (runTimer cb) w, [])
  | RemoveImage id => (withApp (removeImage id) w, [])
  | ClearAll => (withApp clearAll w, [])
  end.

Fixpoint run (w : World) (evs : list Event) : World * list Effect :=
  match evs with
  | [] => (w, [])
  | ev :: rest =>
      let '(w1, e1) := step w ev in
      let '(w2, e2) := run w1 rest in
      (w2, e1 ++ e2)
  end.

(** ** Vocabulary of the properties *)

(** Removing one quote from the front, and one from the back. *)
Definition dropLeadingQuote (s : jsstring) : jsstring :=
  match s with
  | c :: r => if JS.isQuote c then r else s
  | [] => []
  end.

Fixpoint dropTrailingQuote (s : jsstring) : jsstring :=
  match s with
  | [] => []
  | c :: r =>
      match r with
      | [] => if JS.isQuote c then [] else [c]
      | _ :: _ => c :: dropTrailingQuote r
      end
  end.

Definition startsWithQuote (s : jsstring) : bool :=
  match head s with Some c => JS.isQuote c | None => false end.

Definition endsWithQuote (s : jsstring) : bool :=
  match last s with Some c => JS.isQuote c | None => false end.

(** The listing as the specification words it: one line per completed
    item. *)
Definition listingLine (img : ProcessedImage.t) : jsstring :=
  ProcessedImage.name img ++ JS.lit ": "
  ++ JS.template (ProcessedImage.suggestedName img).

Definition completedListing (images : list ProcessedImage.t) : jsstring :=
  JS.join [JS.newline]
    (fmap listingLine
       (filter (λ img, ProcessedImage.status img = completed) images)).

(** The listing over the completed items that carry a non-empty
    suggested name. *)
Definition hasName (img : ProcessedImage.t) : Prop :=
  ProcessedImage.suggestedName img ≠ None
  ∧ ProcessedImage.suggestedName img ≠ Some [].

Definition namedListing (images : list ProcessedImage.t) : jsstring :=
  JS.join [JS.newline]
    (fmap listingLine
       (filter (λ img, ProcessedImage.status img = completed ∧ hasName img)
          images)).

Definition completedImage (name suggested : jsstring) (id : jsstring)
  : ProcessedImage.t :=
  {| ProcessedImage.id := id;
     ProcessedImage.base64 := Some (JS.lit "AAAA");
     ProcessedImage.mimeType := JS.lit "image/png";
     ProcessedImage.name := name;
     ProcessedImage.status := completed;
     ProcessedImage.suggestedName := Some suggested;
     ProcessedImage.error := None |}.

Definition stateWith (images : list ProcessedImage.t) : App.t :=
  App.setImages (λ _, images) App.initial.

(** Sample inputs. *)
Definition dawn_and_unnamed : App.t :=
  stateWith [completedImage (JS.lit "a.png") (JS.lit "Dawn") (JS.lit "1-0.1");
             completedImage (JS.lit "b.png") [] (JS.lit "1-0.2")].

Definition dawn_and_dusk : App.t :=
  stateWith [completedImage (JS.lit "a.png") (JS.lit "Dawn") (JS.lit "1-0.1");
             completedImage (JS.lit "b.png") (JS.lit "Dusk") (JS.lit "1-0.2")].

Definition only_unnamed : App.t :=
  stateWith [completedImage (JS.lit "b.png") [] (JS.lit "1-0.2")].

Definition a_png : File.t := File.mk (JS.lit "a.png") (JS.lit "image/png").
Definition b_png : File.t := File.mk (JS.lit "b.png") (JS.lit "image/png").

Definition read_a_ok : FileRead :=
  {| read_file := a_png;
     read_result := Loaded (JS.lit "data:image/png;base64,AAAA");
     read_id := JS.lit "1-0.1" |}.
Definition read_b_ok : FileRead :=
  {| read_file := b_png;
     read_result := Loaded (JS.lit "data:image/png;base64,BBBB");
     read_id := JS.lit "1-0.2" |}.
Definition read_b_fails : FileRead :=
  {| read_file := b_png; read_result := ReadFails; read_id := JS.lit "1-0.2" |}.

Definition placeholderName : jsstring := JS.lit "image-from-url".

(** The world with a given React state and nothing in flight. *)
Definition idleWorld (s : App.t) : World :=
  {| app := s; loops := []; nextHandle := 0 |}.

(** The results applied to the list, the service calls made and the
    service calls answered, each in order of occurrence. *)
Definition updatesOf (es : list Effect) : list GenerationResult :=
  omap (λ e, match e with ImagesUpdated r => Some r | _ => None end) es.

Definition callsOf (es : list Effect) : list (nat * GenerateContentRequest) :=
  omap (λ e, match e with GenerateContent h q => Some (h, q) | _ => None end) es.


(** The events that start no further batch, and among them those that
    leave the in-progress flag to the batch (clear-all lowers it). *)
Definition notGenerateAll (ev : Event) : Prop :=
  match ev with GenerateAllNames => False | _ => True end.

Definition duringBatch (ev : Event) : Prop :=
  match ev with GenerateAllNames | ClearAll => False | _ => True end.



(** The moves of a status that the lifecycle allows in one step: none,
    queued to generating, generating to completed or to error. *)
Definition forward (s s' : ImageStatus) : Prop :=
  s' = s
  ∨ (s = queued ∧ s' = generating)
  ∨ (s = generating ∧ (s' = completed ∨ s' = error)).

(** The items an event appends to the list, and the ids drawn for the
    items appended along a sequence of events. *)
Definition enqueuedBy (ev : Event) : list ProcessedImage.t :=
  match ev with
  | FilesSettled reads =>
      match promiseAll (filePromises reads) with
      | inl processedImages => processedImages
      | inr _ => []
      end
  | UrlsSettled fetches =>
      match promiseAll (urlPromise <$> fetches) with
      | inl results => successfulFetches results
      | inr _ => []
      end
  | _ => []
  end.

Definition drawnIds (evs : list Event) : list jsstring :=
  mjoin ((λ ev, ProcessedImage.id <$> enqueuedBy ev) <$> evs).

(** The ids of the items whose result a loop has still to apply. *)
Definition pendingOf (ls : list (list GenerationPromise)) : list jsstring :=
  mjoin (fmap (M:=list) promise_id <$> ls).

(** What holds of every world the application can reach when the ids
    drawn so far ([used]) were distinct. *)
Record worldInv (used : list jsstring) (w : World) : Prop := {
  inv_ids : NoDup (ProcessedImage.id <$> App.images (app w));
  inv_pending : NoDup (pendingOf (loops w));
  inv_generating :
    ∀ img, img ∈ App.images (app w) →
           ProcessedImage.id img ∈ pendingOf (loops w) →
           ProcessedImage.status img = generating;
  inv_used_images :
    ∀ img, img ∈ App.images (app w) → ProcessedImage.id img ∈ used;
  inv_used_pending : ∀ i, i ∈ pendingOf (loops w) → i ∈ used;
  inv_results :
    ∀ ps p r, ps ∈ loops w → p ∈ ps → settled p = Some r →
              result_id r = promise_id p;
}.

(** The results [rs] applied to a list one after the other. *)
Definition applyAll (rs : list GenerationResult) (images : list ProcessedImage.t)
  : list ProcessedImage.t :=
  foldl (λ l r, applyResult r l) images rs.

(** One step seen from the items: an item that stays moves forward, an
    item that enters is queued. *)
Definition movesForward (before after : list ProcessedImage.t) : Prop :=
  ∀ img img', img ∈ before → img' ∈ after →
    ProcessedImage.id img = ProcessedImage.id img' →
    forward (ProcessedImage.status img) (ProcessedImage.status img').

Definition entersQueued (before after : list ProcessedImage.t) : Prop :=
  ∀ img', img' ∈ after →
    (∀ img, img ∈ before → ProcessedImage.id img ≠ ProcessedImage.id img') →
    ProcessedImage.status img' = queued.

(** A longer run: two files read, names generated, the second call
    answered, its item removed, a URL fetched, the first call answered
    with a failure, names generated again for the fetched item. *)
Definition c_jpg_fetch : UrlFetch :=
  {| url := JS.lit "https://example.com/art/c.jpg";
     url_parses := true;
     response := Some {| ok := true; status_code := 200;
                         contentType := Some (JS.lit "image/jpeg");
                         blob_type := JS.lit "image/jpeg";
                         blob_read := Loaded (JS.lit "data:image/jpeg;base64,CCCC") |};
     fetch_id := JS.lit "2-0.3" |}.

Definition a_session : list Event :=
  [FileChange (Some [a_png; b_png]); FilesSettled [read_a_ok; read_b_ok];
   GenerateAllNames;
   ServiceSettled 1 (ResponseText (JS.lit "Dusk"));
   RemoveImage (JS.lit "1-0.2");
   UrlsSettled [c_jpg_fetch];
   ServiceSettled 0 ServiceThrows;
   GenerateAllNames].

(** The world after [a.png] and [b.png] were chosen and read. *)
Definition two_queued : World :=
  (run initialWorld
     [FileChange (Some [a_png; b_png]); FilesSettled [read_a_ok; read_b_ok]]).1.

(** Both calls answered, the second one first. *)
Definition answered_in_reverse : list Event :=
  [ServiceSettled 1 (ResponseText (JS.squote :: JS.lit "Dusk" ++ [JS.squote]));
   RemoveImage (JS.lit "7-0.7");
   ServiceSettled 0 ServiceThrows].


(** ** Vocabulary of the further properties *)

Definition allWhiteSpace (s : jsstring) : Prop :=
  Forall (λ c, JS.isWhiteSpace c = true) s.

(** At most one quote. *)
Definition quoteOrNothing (s : jsstring) : Prop :=
  s = [] ∨ ∃ q, JS.isQuote q = true ∧ s = [q].

(** Sample inputs. *)
Definition blank_url_input : jsstring :=
  JS.lit "  " ++ [JS.newline; 9] ++ JS.lit " ".

Definition two_url_lines : jsstring :=
  JS.lit " https://a.example/x.png " ++ [JS.newline; JS.newline]
  ++ JS.lit "https://b.example/y.jpg".

(** The items copy-all lists. *)
Definition listedImages (images : list ProcessedImage.t)
  : list ProcessedImage.t :=
  filter (λ img, ProcessedImage.status img = completed ∧ hasName img) images.

Definition freshlyQueued (img : ProcessedImage.t) : Prop :=
  ProcessedImage.status img = queued
  ∧ ProcessedImage.suggestedName img = None
  ∧ ProcessedImage.error img = None.

(** A selection with a text file between two images; the read of the
    text file would fail if it were ever started. *)
Definition notes_txt : File.t := File.mk (JS.lit "notes.txt") (JS.lit "text/plain").

Definition read_notes : FileRead :=
  {| read_file := notes_txt; read_result := ReadFails;
     read_id := JS.lit "1-0.5" |}.

Definition mixed_selection : list FileRead :=
  [read_a_ok; read_notes; read_b_ok].

(** A URL whose text ends in a lone high surrogate (code unit D83D). *)
Definition lone_surrogate_fetch : UrlFetch :=
  {| url := JS.lit "https://example.com/art/" ++ [55357];
     url_parses := true;
     response := Some {| ok := true; status_code := 200;
                         contentType := Some (JS.lit "image/png");
                         blob_type := JS.lit "image/png";
                         blob_read := Loaded (JS.lit "data:image/png;base64,DDDD") |};
     fetch_id := JS.lit "2-0.6" |}.

(** A response with a content type that is not an image. *)
Definition page_fetch : UrlFetch :=
  {| url := JS.lit "https://example.com/page";
     url_parses := true;
     response := Some {| ok := true; status_code := 200;
                         contentType := Some (JS.lit "text/html");
                         blob_type := JS.lit "text/html";
                         blob_read := Loaded (JS.lit "data:text/html;base64,PGh0bWw+") |};
     fetch_id := JS.lit "2-0.4" |}.

(** What the rendering computes for the Generate button:
    [images.filter(i => i.status === 'queued').length] and
    [disabled={queuedCount === 0 || isLoading}]. *)
Definition queuedCount (s : App.t) : nat :=
  length (List.filter
            (λ i, bool_decide (ProcessedImage.status i = queued))
            (App.images s)).

Definition generateDisabled (s : App.t) : bool :=
  Nat.eqb (queuedCount s) 0 || App.isLoading s.

(** The flag is up only while some loop is in flight. *)
Definition flagNeedsLoop (w : World) : Prop :=
  App.isLoading (app w) = true → loops w ≠ [].

(** The promises in flight await distinct calls, all made already. *)
Definition handlesInv (w : World) : Prop :=
  NoDup (handle <$> mjoin (loops w))
  ∧ ∀ p, p ∈ mjoin (loops w) → (handle p < nextHandle w)%nat.

(** The optional fields an item carries in each status. *)
Definition fieldsMatchStatus (img : ProcessedImage.t) : Prop :=
  match ProcessedImage.status img with
  | queued | generating =>
      ProcessedImage.suggestedName img = None
      ∧ ProcessedImage.error img = None
  | completed =>
      ProcessedImage.suggestedName img ≠ None
      ∧ ProcessedImage.error img = None
  | error =>
      ProcessedImage.suggestedName img = None
      ∧ ProcessedImage.error img ≠ None
  end.

(** [a.png] as it stands at the end of the longer run: its call failed. *)
Definition a_png_failed : ProcessedImage.t :=
  {| ProcessedImage.id := JS.lit "1-0.1";
     ProcessedImage.base64 := Some (JS.lit "AAAA");
     ProcessedImage.mimeType := JS.lit "image/png";
     ProcessedImage.name := JS.lit "a.png";
     ProcessedImage.status := error;
     ProcessedImage.suggestedName := None;
     ProcessedImage.error := Some friendlyError |}.

(** ** Vocabulary of the amended fan-out property *)




(** ** The cleaning of the returned text *)

Section QuoteStripping.

Implicit Types (s : jsstring) (c q : N).

Lemma replaceQuoteRegex_from_inner s : ∀ i : nat,
  i ≠ 0%nat →
  JS.replaceQuoteRegex_from i (i + length s) s = dropTrailingQuote s.
Proof.
  induction s as [|c r IH]; intros i Hi; [reflexivity|].
  cbn [JS.replaceQuoteRegex_from dropTrailingQuote length].
  unfold JS.quoteRegexMatchesAt.
  destruct (Nat.eqb_spec i 0) as [|_]; [lia|]. cbn [orb].
  replace (i + S (length r))%nat with (S i + length r)%nat by lia.
  destruct r as [|d r'].
  - cbn [length]. replace (S i + 0)%nat with (S i) by lia.
    rewrite Nat.eqb_refl, andb_true_r. now destruct (JS.isQuote c).
  - destruct (Nat.eqb_spec (S i) (S i + length (d :: r'))) as [E|_].
    { cbn [length] in E. lia. }
    rewrite andb_false_r. f_equal. now apply IH.
Qed.

Lemma replaceQuoteRegex_ends s :
  JS.replaceQuoteRegex s = dropTrailingQuote (dropLeadingQuote s).
Proof.
  destruct s as [|c r]; [reflexivity|].
  unfold JS.replaceQuoteRegex.
  cbn [JS.replaceQuoteRegex_from dropLeadingQuote length].
  unfold JS.quoteRegexMatchesAt. cbn [Nat.eqb orb].
  rewrite andb_true_r.
  pose proof (replaceQuoteRegex_from_inner r 1 ltac:(lia)) as H.
  cbn [Nat.add] in H. rewrite H.
  destruct (JS.isQuote c) eqn:Hc; [reflexivity|].
  cbn [dropTrailingQuote]. destruct r; [now rewrite Hc | reflexivity].
Qed.

Lemma dropTrailingQuote_snoc s c :
  dropTrailingQuote (s ++ [c]) = if JS.isQuote c then s else s ++ [c].
Proof.
  induction s as [|d r IH]; simpl.
  - now destruct (JS.isQuote c).
  - destruct (r ++ [c]) as [|e t] eqn:E.
    + destruct r; discriminate E.
    + rewrite IH. now destruct (JS.isQuote c).
Qed.

Lemma dropTrailingQuote_id s :
  endsWithQuote s = false → dropTrailingQuote s = s.
Proof.
  destruct s as [|c r] using rev_ind; [reflexivity|].
  unfold endsWithQuote. rewrite last_snoc, dropTrailingQuote_snoc.
  now intros ->.
Qed.

Lemma dropLeadingQuote_id s :
  startsWithQuote s = false → dropLeadingQuote s = s.
Proof. destruct s as [|c r]; [reflexivity|]. cbn. now intros ->. Qed.

Lemma replaceQuoteRegex_unquoted s :
  startsWithQuote s = false → endsWithQuote s = false →
  JS.replaceQuoteRegex s = s.
Proof.
  intros Hs He. rewrite replaceQuoteRegex_ends, dropLeadingQuote_id by done.
  now apply dropTrailingQuote_id.
Qed.

Lemma replaceQuoteRegex_wrapped q1 q2 s :
  JS.isQuote q1 = true → JS.isQuote q2 = true →
  JS.replaceQuoteRegex (q1 :: s ++ [q2]) = s.
Proof.
  intros H1 H2. rewrite replaceQuoteRegex_ends. cbn [dropLeadingQuote].
  now rewrite H1, dropTrailingQuote_snoc, H2.
Qed.

(** [trim] leaves no white space at either end, so trimming twice is
    trimming once. *)
Lemma trimEnd_idem s : JS.trimEnd (JS.trimEnd s) = JS.trimEnd s.
Proof.
  induction s as [|c r IH]; [reflexivity|].
  cbn [JS.trimEnd]. destruct (JS.trimEnd r) as [|d t] eqn:E.
  - destruct (JS.isWhiteSpace c) eqn:Hc; [reflexivity|].
    cbn. now rewrite Hc.
  - cbn [JS.trimEnd]. cbn [JS.trimEnd] in IH. now rewrite IH.
Qed.

Lemma trimStart_head s :
  match JS.trimStart s with
  | [] => True
  | c :: _ => JS.isWhiteSpace c = false
  end.
Proof.
  induction s as [|c r IH]; [exact I|].
  cbn [JS.trimStart]. now destruct (JS.isWhiteSpace c) eqn:Hc.
Qed.

Lemma trimStart_trimEnd s :
  match s with [] => True | c :: _ => JS.isWhiteSpace c = false end →
  JS.trimStart (JS.trimEnd s) = JS.trimEnd s.
Proof.
  destruct s as [|c r]; [reflexivity|]. intros Hc.
  cbn [JS.trimEnd]. destruct (JS.trimEnd r); rewrite ?Hc; simpl; now rewrite Hc.
Qed.

Lemma trim_idem s : JS.trim (JS.trim s) = JS.trim s.
Proof.
  unfold JS.trim.
  rewrite (trimStart_trimEnd (JS.trimStart s)) by apply trimStart_head.
  apply trimEnd_idem.
Qed.

End QuoteStripping.

Lemma dropTrailingQuote_length s :
  (length s - 1 ≤ length (dropTrailingQuote s) ≤ length s)%nat.
Proof.
  destruct s as [|c r] using rev_ind; [simpl; lia|].
  rewrite dropTrailingQuote_snoc, length_app. simpl.
  destruct (JS.isQuote c); rewrite ?length_app; simpl; lia.
Qed.

Lemma dropLeadingQuote_length s :
  (length s - 1 ≤ length (dropLeadingQuote s) ≤ length s)%nat.
Proof.
  destruct s as [|c r]; simpl; [lia|].
  destruct (JS.isQuote c); simpl; lia.
Qed.

(** C6. Whatever text the service returns, once it is trimmed: if it is
    wrapped in a pair of equal straight quotes (double or single) the
    stored name is the text between them; only that one layer goes, so a
    doubly wrapped text keeps its inner pair; and a text with no quote at
    either end is stored as it is, so that cleaning it again (the
    replacement alone, or trim and replacement) changes nothing. *)
Theorem cleanName_strips_one_matching_layer (raw : jsstring) :
  (∀ img id,
     ProcessedImage.suggestedName
       (spreadResult img (generationResult id (ResponseText raw)))
     = Some (cleanName raw))
  ∧ (∀ q s, JS.isQuote q = true → JS.trim raw = q :: s ++ [q] →
       cleanName raw = s)
  ∧ (∀ q s, JS.isQuote q = true → JS.trim raw = q :: q :: s ++ [q; q] →
       cleanName raw = q :: s ++ [q])
  ∧ (startsWithQuote (JS.trim raw) = false →
     endsWithQuote (JS.trim raw) = false →
       cleanName raw = JS.trim raw
       ∧ JS.replaceQuoteRegex (cleanName raw) = cleanName raw
       ∧ cleanName (cleanName raw) = cleanName raw)
  ∧ cleanName (JS.dquote :: JS.lit "Sunset" ++ [JS.dquote]) = JS.lit "Sunset"
  ∧ cleanName (JS.squote :: JS.lit "Sunset" ++ [JS.squote]) = JS.lit "Sunset"
  ∧ cleanName (JS.lit "Sunset") = JS.lit "Sunset".
Proof.
  split; [reflexivity|].
  split.
  { intros q s Hq E. unfold cleanName. rewrite E.
    now apply replaceQuoteRegex_wrapped. }
  split.
  { intros q s Hq E. unfold cleanName. rewrite E.
    replace (q :: s ++ [q; q]) with ((q :: s ++ [q]) ++ [q])
      by (simpl; now rewrite <- app_assoc).
    now apply replaceQuoteRegex_wrapped. }
  split; [|repeat split; reflexivity].
  intros Hs He.
  assert (cleanName raw = JS.trim raw) as E
    by (now apply replaceQuoteRegex_unquoted).
  split; [exact E|]. split.
  - rewrite E. now apply replaceQuoteRegex_unquoted.
  - unfold cleanName at 1. rewrite E, trim_idem. exact E.
Qed.

Lemma cleanName_strips_one_matching_layer_witness :
  cleanName (JS.lit "  'Sunset' ") = JS.lit "Sunset".
Proof.
  refine (proj1 (proj2 (cleanName_strips_one_matching_layer
                          (JS.lit "  'Sunset' ")))
            JS.squote (JS.lit "Sunset") _ _); reflexivity.
Defined.

(** C10. The replacement treats the two ends separately: its result is
    the text without its first code unit if that is a quote, and then
    without its last code unit if that is a quote.  So a quote at each
    end goes even when the two differ, a quote at one end only goes
    too, nothing else is removed, and at most two code units are. *)
Theorem replaceQuoteRegex_each_end_on_its_own (s : jsstring) :
  JS.replaceQuoteRegex s = dropTrailingQuote (dropLeadingQuote s)
  ∧ (∀ q1 q2 t, JS.isQuote q1 = true → JS.isQuote q2 = true →
       s = q1 :: t ++ [q2] → JS.replaceQuoteRegex s = t)
  ∧ (∀ q t, JS.isQuote q = true → endsWithQuote t = false →
       s = q :: t → JS.replaceQuoteRegex s = t)
  ∧ (∀ q t, JS.isQuote q = true → startsWithQuote t = false →
       s = t ++ [q] → JS.replaceQuoteRegex s = t)
  ∧ (length s - 2 ≤ length (JS.replaceQuoteRegex s) ≤ length s)%nat
  ∧ cleanName (JS.squote :: JS.lit "Sunset" ++ [JS.dquote]) = JS.lit "Sunset"
  ∧ cleanName (JS.lit "Sunset" ++ [JS.dquote]) = JS.lit "Sunset"
  ∧ cleanName (JS.squote :: JS.lit "Sunset") = JS.lit "Sunset".
Proof.
  split; [apply replaceQuoteRegex_ends|].
  split.
  { intros q1 q2 t H1 H2 ->. now apply replaceQuoteRegex_wrapped. }
  split.
  { intros q t Hq He ->. rewrite replaceQuoteRegex_ends.
    cbn [dropLeadingQuote]. rewrite Hq. now apply dropTrailingQuote_id. }
  split.
  { intros q t Hq Hs ->. rewrite replaceQuoteRegex_ends.
    destruct t as [|c r].
    - simpl. now rewrite Hq.
    - change ((c :: r) ++ [q]) with (c :: r ++ [q]).
      cbn [dropLeadingQuote]. unfold startsWithQuote in Hs. simpl in Hs.
      rewrite Hs. change (c :: r ++ [q]) with ((c :: r) ++ [q]).
      now rewrite dropTrailingQuote_snoc, Hq. }
  split; [|repeat split; reflexivity].
  rewrite replaceQuoteRegex_ends.
  pose proof (dropLeadingQuote_length s).
  pose proof (dropTrailingQuote_length (dropLeadingQuote s)). lia.
Qed.

Lemma replaceQuoteRegex_each_end_on_its_own_witness :
  JS.replaceQuoteRegex (JS.squote :: JS.lit "Sunset" ++ [JS.dquote])
  = JS.lit "Sunset".
Proof.
  refine (proj1 (proj2 (replaceQuoteRegex_each_end_on_its_own
                          (JS.squote :: JS.lit "Sunset" ++ [JS.dquote])))
            JS.squote JS.dquote (JS.lit "Sunset") _ _ _); reflexivity.
Defined.

(** ** Ingestion *)

Lemma promiseAll_rejects {A E} (ps : list (A + E)) :
  (∃ e, inr e ∈ ps) → ∃ e, promiseAll ps = inr e ∧ inr e ∈ ps.
Proof.
  induction ps as [|[a|e] rest IH]; intros [e' He'].
  - inversion He'.
  - apply elem_of_cons in He' as [?|He']; [discriminate|].
    destruct (IH (ex_intro _ e' He')) as (e & Heq & Hin).
    exists e. cbn [promiseAll]. rewrite Heq. split; [reflexivity | now right].
  - exists e. split; [reflexivity | now left].
Qed.

(** C1. When the read of at least one image file of the selection
    fails, the continuation of [Promise.all] appends nothing: the image
    list is the one before, whatever the other reads produced, and the
    error text is the message of a failed read. *)
Theorem processFiles_settled_drops_all_on_one_failure
    (reads : list FileRead) (s : App.t) :
  (∃ r, r ∈ reads ∧ accepted r = true ∧ read_result r = ReadFails) →
  App.images (processFiles_settled reads s) = App.images s
  ∧ ∃ r, r ∈ reads ∧ read_result r = ReadFails
         ∧ App.error (processFiles_settled reads s)
           = JS.lit "Failed to read file: " ++ File.name (read_file r).
Proof.
  intros (r & Hr & Ha & Hf).
  destruct (promiseAll_rejects (filePromises reads)) as (e & He & Hin).
  { exists (JS.lit "Failed to read file: " ++ File.name (read_file r)).
    apply list_elem_of_fmap. exists r. split.
    - unfold filePromise. now rewrite Hf.
    - apply list_elem_of_In, filter_In. split; [|exact Ha].
      now apply list_elem_of_In. }
  unfold processFiles_settled. rewrite He. split; [reflexivity|].
  apply list_elem_of_fmap in Hin as (r' & Hr' & Hin').
  apply list_elem_of_In, filter_In in Hin' as [Hin' _].
  exists r'. split; [now apply list_elem_of_In|].
  unfold filePromise in Hr'. destruct (read_result r'); [discriminate|].
  split; [reflexivity|]. now inversion Hr'.
Qed.

Lemma processFiles_settled_drops_all_on_one_failure_witness :
  App.images
    (processFiles_settled [read_a_ok; read_b_fails]
       (processFiles (Some [a_png; b_png]) App.initial)) = []
  ∧ ∃ r, r ∈ [read_a_ok; read_b_fails] ∧ read_result r = ReadFails
         ∧ App.error
             (processFiles_settled [read_a_ok; read_b_fails]
                (processFiles (Some [a_png; b_png]) App.initial))
           = JS.lit "Failed to read file: " ++ File.name (read_file r).
Proof.
  apply (processFiles_settled_drops_all_on_one_failure
           [read_a_ok; read_b_fails]
           (processFiles (Some [a_png; b_png]) App.initial)).
  exists read_b_fails. split; [|split; reflexivity].
  apply list_elem_of_lookup. exists 1%nat. reflexivity.
Defined.

Lemma lastIndexOf_from_absent (c : N) (s : jsstring) : ∀ i,
  c ∉ s → JS.lastIndexOf_from i c s = (-1)%Z.
Proof.
  induction s as [|d r IH]; intros i Hc; [reflexivity|].
  apply not_elem_of_cons in Hc as [Hcd Hr].
  cbn [JS.lastIndexOf_from]. rewrite IH by exact Hr. cbn.
  destruct (N.eqb_spec d c); [congruence | reflexivity].
Qed.

Lemma lastIndexOf_from_last (c : N) (b a : jsstring) : ∀ i,
  (0 ≤ i)%Z → c ∉ b →
  JS.lastIndexOf_from i c (a ++ c :: b) = (i + Z.of_nat (length a))%Z.
Proof.
  induction a as [|d a' IH]; intros i Hi Hc.
  - change ([] ++ c :: b) with (c :: b).
    cbn [JS.lastIndexOf_from length]. rewrite lastIndexOf_from_absent by done.
    cbn. rewrite N.eqb_refl. lia.
  - change ((d :: a') ++ c :: b) with (d :: (a' ++ c :: b)).
    cbn [JS.lastIndexOf_from]. rewrite IH by (lia || done).
    destruct (Z.leb_spec 0 (i + 1 + Z.of_nat (length a'))); [|lia].
    cbn [length]. lia.
Qed.

Lemma split_absent (sep : N) (s : jsstring) :
  sep ∉ s → JS.split sep s = [s].
Proof.
  induction s as [|c r IH]; intros Hs; [reflexivity|].
  apply not_elem_of_cons in Hs as [Hc Hr].
  cbn [JS.split]. destruct (N.eqb_spec c sep); [congruence|].
  now rewrite IH.
Qed.

(** C7. The display name is the text after the last ['/'] of the whole
    URL, cut at its first ['?'], or the placeholder if that is empty.
    When the text after the last ['/'] holds no ['?'] it is the name,
    wherever that ['/'] stands: a ['/'] inside the query string makes
    the name a piece of the query, not the last path segment. *)
Theorem fileNameOfUrl_is_text_after_last_slash (a b : jsstring) :
  JS.slash ∉ b → JS.qmark ∉ b →
  fileNameOfUrl (a ++ JS.slash :: b) = JS.or_else b placeholderName.
Proof.
  intros Hs Hq. unfold fileNameOfUrl, JS.lastIndexOf.
  rewrite lastIndexOf_from_last by (lia || done).
  unfold JS.substring.
  replace (Z.to_nat (Z.max 0 (0 + Z.of_nat (length a) + 1)))
    with (length a + 1)%nat by lia.
  rewrite <- drop_drop, drop_app_length. cbn [drop].
  rewrite split_absent by done. reflexivity.
Qed.

Lemma fileNameOfUrl_is_text_after_last_slash_witness :
  fileNameOfUrl (JS.lit "https://example.com/art/cat.png?ref=a/b") = JS.lit "b".
Proof.
  apply (fileNameOfUrl_is_text_after_last_slash
           (JS.lit "https://example.com/art/cat.png?ref=a") (JS.lit "b"));
    intros H; apply list_elem_of_In in H; simpl in H;
    destruct H as [H|[]]; discriminate H.
Defined.

(** ** Copy all *)

Lemma bool_filter_as_filter {A} (f : A → bool) (P : A → Prop)
    `{∀ x, Decision (P x)} (l : list A) :
  (∀ x, f x = true ↔ P x) → List.filter f l = filter P l.
Proof.
  intros Hf. induction l as [|x l IH]; [reflexivity|].
  cbn [List.filter]. rewrite filter_cons, IH.
  destruct (f x) eqn:E, (decide (P x)) as [Hp|Hp]; try reflexivity.
  - exfalso. apply Hp, Hf, E.
  - apply Hf in Hp. congruence.
Qed.

Lemma truthy_opt_hasName (img : ProcessedImage.t) :
  JS.truthy_opt (ProcessedImage.suggestedName img) = true ↔ hasName img.
Proof.
  unfold hasName.
  destruct (ProcessedImage.suggestedName img) as [[|c n]|]; cbn;
    split; try discriminate; try (intros [? ?]; congruence);
    intros _; split; discriminate.
Qed.

Lemma textToCopy_namedListing (images : list ProcessedImage.t) :
  textToCopy images = namedListing images.
Proof.
  unfold textToCopy, namedListing. f_equal.
  change (λ img, ProcessedImage.name img ++ JS.lit ": "
                 ++ JS.template (ProcessedImage.suggestedName img))
    with listingLine.
  f_equal. apply bool_filter_as_filter. intros img.
  rewrite andb_true_iff, bool_decide_eq_true, truthy_opt_hasName. tauto.
Qed.

Lemma listingLine_nonempty (img : ProcessedImage.t) : listingLine img ≠ [].
Proof.
  unfold listingLine. intros E. apply (f_equal length) in E.
  rewrite !length_app in E. simpl in E. lia.
Qed.

Lemma join_nil_iff (sep : jsstring) (parts : list jsstring) :
  (∀ p, p ∈ parts → p ≠ []) → JS.join sep parts = [] ↔ parts = [].
Proof.
  intros Hne. destruct parts as [|p rest]; [tauto|].
  split; [|discriminate]. intros E. exfalso.
  apply (Hne p); [left|].
  cbn [JS.join] in E. destruct rest; [exact E|].
  now apply app_eq_nil in E as [-> _].
Qed.

Lemma namedListing_nil_iff (images : list ProcessedImage.t) :
  namedListing images = [] ↔
  ∀ img, img ∈ images → ProcessedImage.status img = completed →
         ProcessedImage.suggestedName img = None
         ∨ ProcessedImage.suggestedName img = Some [].
Proof.
  unfold namedListing. rewrite join_nil_iff.
  2:{ intros p Hp. apply list_elem_of_fmap in Hp as (img & -> & _).
      apply listingLine_nonempty. }
  split.
  - intros E img Hin Hc. apply fmap_nil_inv in E.
    destruct (ProcessedImage.suggestedName img) as [[|c n]|] eqn:Hn; auto.
    exfalso. eapply filter_nil_not_elem_of; [exact E| |exact Hin].
    split; [exact Hc|]. unfold hasName. rewrite Hn. split; discriminate.
  - intros Hall.
    destruct (filter _ images) as [|img l] eqn:E; [reflexivity|]. exfalso.
    assert (img ∈ filter (λ img, ProcessedImage.status img = completed
                                 ∧ hasName img) images) as Hin
      by (rewrite E; left).
    apply list_elem_of_filter in Hin as [[Hc [H1 H2]] Hin].
    destruct (Hall img Hin Hc); congruence.
Qed.

(** C5, as the code has it. The text copy-all builds is the
    newline-joined listing of the items that are completed and carry a
    non-empty suggested name, in list order.  When that text is not
    empty it is written to the clipboard, the state of copied indicators
    becomes the one entry [all: true], and a timer of 2000 ms is set
    whose callback makes it [all: false].  When it is empty (no completed
    item has a non-empty name) nothing is written and no state changes. *)
Theorem handleCopyAll_lists_named_completed (s : App.t) :
  let t := namedListing (App.images s) in
  (t ≠ [] →
     handleCopyAll s
     = (App.setCopiedStates (λ _, {[ allKey := true ]}) s,
        [ClipboardWriteText t; SetTimeout CopiedAllFalse 2000])
     ∧ App.copiedStates (handleCopyAll s).1 !! allKey = Some true
     ∧ App.copiedStates (runTimer CopiedAllFalse (handleCopyAll s).1) !! allKey
       = Some false
     ∧ App.images (handleCopyAll s).1 = App.images s)
  ∧ (t = [] → handleCopyAll s = (s, []))
  ∧ (t = [] ↔
     ∀ img, img ∈ App.images s → ProcessedImage.status img = completed →
            ProcessedImage.suggestedName img = None
            ∨ ProcessedImage.suggestedName img = Some []).
Proof.
  cbv zeta. unfold handleCopyAll. rewrite textToCopy_namedListing.
  split; [|split; [intros ->; reflexivity | apply namedListing_nil_iff]].
  intros Hne. destruct (namedListing (App.images s)) as [|c t]; [done|].
  cbn [JS.truthy fst]. repeat split; apply lookup_singleton_eq.
Qed.

Lemma handleCopyAll_lists_named_completed_witness :
  handleCopyAll dawn_and_unnamed
  = (App.setCopiedStates (λ _, {[ allKey := true ]}) dawn_and_unnamed,
     [ClipboardWriteText (JS.lit "a.png: Dawn");
      SetTimeout CopiedAllFalse 2000]).
Proof.
  refine (proj1 (proj1 (handleCopyAll_lists_named_completed dawn_and_unnamed) _)).
  discriminate.
Defined.

(** C5, as stated, fails. With [a.png] completed as Dawn and [b.png]
    completed with the empty name, the listing of every completed item
    has two lines, and copy-all writes the first only; with [b.png]
    alone, the listing of every completed item is not empty, and
    copy-all writes nothing and sets no indicator. *)
Lemma handleCopyAll_omits_empty_name :
  completedListing (App.images dawn_and_unnamed)
  = JS.lit "a.png: Dawn" ++ [JS.newline] ++ JS.lit "b.png: "
  ∧ (handleCopyAll dawn_and_unnamed).2
    = [ClipboardWriteText (JS.lit "a.png: Dawn");
       SetTimeout CopiedAllFalse 2000]
  ∧ (ClipboardWriteText (completedListing (App.images dawn_and_unnamed))
     ∉ (handleCopyAll dawn_and_unnamed).2)
  ∧ completedListing (App.images only_unnamed) = JS.lit "b.png: "
  ∧ handleCopyAll only_unnamed = (only_unnamed, [])
  ∧ App.copiedStates (handleCopyAll only_unnamed).1 !! allKey = None.
Proof.
  split; [reflexivity|]. split; [reflexivity|].
  split; [|repeat split; vm_compute; reflexivity].
  apply (bool_decide_unpack _). vm_compute. exact I.
Qed.

(** ** Generate all and the application of results *)

Lemma queuedImages_nil (images : list ProcessedImage.t) :
  (∀ img, img ∈ images → ProcessedImage.status img ≠ queued) →
  queuedImages images = [].
Proof.
  intros H. unfold queuedImages.
  induction images as [|img l IH]; [reflexivity|].
  rewrite filter_cons_False by (apply H; left).
  apply IH. intros i Hi. apply H. now right.
Qed.

(** C8. With no queued item, generate-all returns at once: the world
    after it is the world before it (the list, the in-progress flag and
    the error text among the rest) and no call is made. *)
Theorem generate_all_without_queued_is_noop (w : World) :
  (∀ img, img ∈ App.images (app w) → ProcessedImage.status img ≠ queued) →
  step w GenerateAllNames = (w, [])
  ∧ App.images (app (step w GenerateAllNames).1) = App.images (app w)
  ∧ App.isLoading (app (step w GenerateAllNames).1) = App.isLoading (app w)
  ∧ App.error (app (step w GenerateAllNames).1) = App.error (app w).
Proof.
  intros H. cbn [step]. unfold handleGenerateAllNames.
  rewrite queuedImages_nil by exact H. repeat split.
Qed.

Lemma generate_all_without_queued_is_noop_witness :
  step (idleWorld dawn_and_unnamed) GenerateAllNames
  = (idleWorld dawn_and_unnamed, []).
Proof.
  refine (proj1 (generate_all_without_queued_is_noop
                   (idleWorld dawn_and_unnamed) _)).
  intros img Hin. apply list_elem_of_In in Hin. simpl in Hin.
  destruct Hin as [<-|[<-|[]]]; discriminate.
Defined.

Lemma applyResult_lookup (r : GenerationResult) (prev : list ProcessedImage.t)
    (i : nat) :
  applyResult r prev !! i
  = (λ img, if decide (ProcessedImage.id img = result_id r)
            then spreadResult img r else img) <$> prev !! i.
Proof. apply list_lookup_fmap. Qed.

Lemma spreadResult_id (img : ProcessedImage.t) (r : GenerationResult) :
  ProcessedImage.id (spreadResult img r) = result_id r.
Proof. now destruct r. Qed.

Lemma applyResult_ids (r : GenerationResult) (prev : list ProcessedImage.t) :
  ProcessedImage.id <$> applyResult r prev = ProcessedImage.id <$> prev.
Proof.
  unfold applyResult. rewrite <- list_fmap_compose.
  apply list_fmap_ext. intros _ img _. cbn.
  destruct (decide _) as [E|_]; [|reflexivity].
  now rewrite spreadResult_id.
Qed.

Lemma applyResult_absent (r : GenerationResult) (prev : list ProcessedImage.t) :
  (∀ img, img ∈ prev → ProcessedImage.id img ≠ result_id r) →
  applyResult r prev = prev.
Proof.
  intros H. unfold applyResult.
  rewrite <- (list_fmap_id prev) at 2.
  apply list_fmap_ext. intros i img Hi. cbn.
  destruct (decide _) as [E|_]; [|reflexivity].
  exfalso. eapply H; [|exact E]. eapply list_elem_of_lookup_2, Hi.
Qed.

(** C9. Applying a result keeps the length of the list and the id at
    every position; an item with another id is left as it is, at its
    position; an item with the result's id keeps its id, content, media
    type and name and takes the result's status; when ids are distinct
    at most one position changes; and when no item has the result's id
    (it was removed, or the list was cleared, in the meantime) the list
    is returned unchanged. *)
Theorem applyResult_touches_only_its_item
    (r : GenerationResult) (prev : list ProcessedImage.t) :
  length (applyResult r prev) = length prev
  ∧ ProcessedImage.id <$> applyResult r prev = ProcessedImage.id <$> prev
  ∧ (∀ i img, prev !! i = Some img →
       ProcessedImage.id img ≠ result_id r →
       applyResult r prev !! i = Some img)
  ∧ (∀ i img, prev !! i = Some img →
       ProcessedImage.id img = result_id r →
       ∃ img', applyResult r prev !! i = Some img'
         ∧ ProcessedImage.id img' = ProcessedImage.id img
         ∧ ProcessedImage.base64 img' = ProcessedImage.base64 img
         ∧ ProcessedImage.mimeType img' = ProcessedImage.mimeType img
         ∧ ProcessedImage.name img' = ProcessedImage.name img
         ∧ ProcessedImage.status img' = result_status r)
  ∧ (NoDup (ProcessedImage.id <$> prev) →
     ∀ i j, applyResult r prev !! i ≠ prev !! i →
            applyResult r prev !! j ≠ prev !! j → i = j)
  ∧ ((∀ img, img ∈ prev → ProcessedImage.id img ≠ result_id r) →
     applyResult r prev = prev)
  ∧ (∀ s, applyResult r (App.images (removeImage (result_id r) s))
          = App.images (removeImage (result_id r) s))
  ∧ (∀ s, applyResult r (App.images (clearAll s)) = []).
Proof.
  split; [apply length_fmap|].
  split; [apply applyResult_ids|].
  split.
  { intros i img Hi Hne. rewrite applyResult_lookup, Hi. cbn.
    now destruct (decide _). }
  split.
  { intros i img Hi E. rewrite applyResult_lookup, Hi. cbn.
    destruct (decide _) as [_|]; [|done].
    exists (spreadResult img r). split; [reflexivity|].
    rewrite spreadResult_id. destruct r; cbn in *; auto. }
  split.
  { intros Hnd i j Hi Hj.
    assert (∀ k, applyResult r prev !! k ≠ prev !! k →
                 (ProcessedImage.id <$> prev) !! k = Some (result_id r)) as Hk.
    { intros k Hne. rewrite applyResult_lookup in Hne.
      rewrite list_lookup_fmap.
      destruct (prev !! k) as [img|]; [|done]. cbn in *.
      destruct (decide _) as [->|]; [reflexivity | done]. }
    eapply NoDup_lookup; [exact Hnd | apply Hk, Hi | apply Hk, Hj]. }
  split; [apply applyResult_absent|].
  split.
  - intros s. apply applyResult_absent. intros img Hin.
    cbn in Hin. now apply list_elem_of_filter in Hin as [? _].
  - reflexivity.
Qed.

Lemma applyResult_touches_only_its_item_witness :
  applyResult (ResultCompleted (JS.lit "9-0.9") (JS.lit "Dusk"))
    (App.images dawn_and_unnamed)
  = App.images dawn_and_unnamed.
Proof.
  refine (proj1 (proj2 (proj2 (proj2 (proj2 (proj2
    (applyResult_touches_only_its_item
       (ResultCompleted (JS.lit "9-0.9") (JS.lit "Dusk"))
       (App.images dawn_and_unnamed))))))) _).
  intros img Hin. apply list_elem_of_In in Hin. simpl in Hin.
  destruct Hin as [<-|[<-|[]]]; discriminate.
Defined.

Section ResultLoop.

Implicit Types (ps : list GenerationPromise) (rs : list GenerationResult)
  (w : World) (s : App.t) (es : list Effect) (ids : list jsstring).

Lemma awaitSettled_split ps :
  ∃ m, (awaitSettled ps).2 = drop m ps
     ∧ Some <$> (awaitSettled ps).1 = settled <$> take m ps
     ∧ head (drop m ps) ≫= settled = None.
Proof.
  induction ps as [|p rest IH].
  - exists 0%nat. repeat split.
  - cbn [awaitSettled]. destruct (settled p) as [r|] eqn:E.
    + destruct IH as (m & H1 & H2 & H3). exists (S m).
      destruct (awaitSettled rest) as [rs ps']. cbn in *.
      rewrite E, H2. repeat split; assumption.
    + exists 0%nat. cbn. rewrite E. repeat split.
Qed.

Lemma generationResult_id (id : jsstring) (o : ServiceOutcome) :
  result_id (generationResult id o) = id.
Proof. now destruct o. Qed.

Lemma settlePromise_id h o (p : GenerationPromise) :
  promise_id (settlePromise h o p) = promise_id p.
Proof.
  unfold settlePromise. destruct (decide _); [|reflexivity].
  now destruct (settled p).
Qed.

Lemma settlePromise_handle h o (p : GenerationPromise) :
  handle (settlePromise h o p) = handle p.
Proof.
  unfold settlePromise. destruct (decide _); [|reflexivity].
  now destruct (settled p).
Qed.


Lemma settlePromise_result h o (p : GenerationPromise) r :
  (∀ r', settled p = Some r' → result_id r' = promise_id p) →
  settled (settlePromise h o p) = Some r → result_id r = promise_id p.
Proof.
  unfold settlePromise. intros Hp. destruct (decide _) as [E|E]; [|apply Hp].
  destruct (settled p) as [r0|] eqn:Es.
  - rewrite Es. intros [= <-]. now apply Hp.
  - cbn. intros [= <-]. apply generationResult_id.
Qed.

Lemma foldl_setImages_isLoading rs : ∀ s,
  App.isLoading (foldl (λ s r, App.setImages (applyResult r) s) s rs)
  = App.isLoading s.
Proof. induction rs as [|r rs IH]; intros s; [reflexivity|]. cbn. now rewrite IH. Qed.


Lemma callsOf_app es1 es2 : callsOf (es1 ++ es2) = callsOf es1 ++ callsOf es2.
Proof. apply omap_app. Qed.


Lemma callsOf_ImagesUpdated rs : callsOf (ImagesUpdated <$> rs) = [].
Proof. induction rs as [|r rs IH]; [reflexivity|]. exact IH. Qed.

Lemma resumeLoop_effects ps s :
  (resumeLoop ps s).2 = ImagesUpdated <$> (awaitSettled ps).1.
Proof.
  unfold resumeLoop. destruct (awaitSettled ps) as [rs [|p ps']]; reflexivity.
Qed.

Lemma resumeLoop_loops ps s :
  (resumeLoop ps s).1.1
  = match (awaitSettled ps).2 with [] => [] | ps' => [ps'] end.
Proof.
  unfold resumeLoop. destruct (awaitSettled ps) as [rs [|p ps']]; reflexivity.
Qed.

Lemma resumeLoop_isLoading ps s :
  App.isLoading (resumeLoop ps s).1.2
  = match (awaitSettled ps).2 with
    | [] => false
    | _ :: _ => App.isLoading s
    end.
Proof.
  unfold resumeLoop. destruct (awaitSettled ps) as [rs [|p ps']]; cbn;
    [reflexivity | apply foldl_setImages_isLoading].
Qed.



End ResultLoop.

Section BatchRun.

Implicit Types (ps : list GenerationPromise) (rs : list GenerationResult)
  (w : World) (s : App.t) (es : list Effect) (ids : list jsstring)
  (ev : Event) (evs : list Event).

Lemma settled_results_ids rs : ∀ ps,
  Some <$> rs = settled <$> ps →
  (∀ p r, p ∈ ps → settled p = Some r → result_id r = promise_id p) →
  result_id <$> rs = promise_id <$> ps.
Proof.
  induction rs as [|r rs IH]; intros [|p ps] E Hr; try discriminate;
    [reflexivity|].
  cbn in E. injection E as E1 E2. cbn. f_equal.
  - apply Hr; [left | done].
  - apply IH; [exact E2|]. intros p' r' Hin. apply Hr. now right.
Qed.

Lemma step_other w ev :
  notGenerateAll ev → (∀ h o, ev ≠ ServiceSettled h o) →
  loops (step w ev).1 = loops w
  ∧ updatesOf (step w ev).2 = []
  ∧ callsOf (step w ev).2 = [].
Proof.
  intros Hg Hs. destruct ev; try done; try (exfalso; now eapply Hs).
  cbn. unfold handleCopyAll. now destruct (JS.truthy _).
Qed.





End BatchRun.

Section GenerateAll.

Implicit Types (w : World) (ev : Event) (evs : list Event)
  (ids : list jsstring).


Lemma step_other_isLoading w ev :
  duringBatch ev → (∀ h o, ev ≠ ServiceSettled h o) →
  App.isLoading (app (step w ev).1) = App.isLoading (app w).
Proof.
  intros Hd Hs. destruct ev; try done; try (exfalso; now eapply Hs); cbn.
  - now destruct files.
  - unfold handleDrop. destruct (_ || _); [reflexivity | now destruct files].
  - unfold processFiles_settled. now destruct (promiseAll _).
  - unfold handleFetchFromUrls. now destruct (urlsOfInput _).
  - unfold handleFetchFromUrls_settled.
    destruct (promiseAll _) as [results|]; [|reflexivity].
    now destruct (successfulFetches results), (failedFetches results).
  - unfold handleCopyAll. now destruct (JS.truthy _).
  - now destruct cb.
Qed.






Lemma flipQueued_none_queued (images : list ProcessedImage.t) :
  queuedImages (flipQueued images) = [].
Proof.
  apply queuedImages_nil. intros img Hin.
  apply list_elem_of_fmap in Hin as (img0 & -> & _).
  destruct (decide _) as [E|E]; [discriminate | exact E].
Qed.

End GenerateAll.

Lemma generateAll_start (w : World) :
  queuedImages (App.images (app w)) ≠ [] →
  App.images (app (step w GenerateAllNames).1) = flipQueued (App.images (app w))
  ∧ App.isLoading (app (step w GenerateAllNames).1) = true
  ∧ (step w GenerateAllNames).2
    = imap (λ k img,
              GenerateContent (nextHandle w + k)
                (generateArtName_request (ProcessedImage.base64 img)
                   (ProcessedImage.mimeType img) (App.nameStyle (app w))))
        (queuedImages (App.images (app w)))
  ∧ loops (step w GenerateAllNames).1 ≠ [].
Proof.
  intros Hq. cbn [step]. unfold handleGenerateAllNames.
  destruct (queuedImages (App.images (app w))) as [|img q]; [done|].
  cbn [fst snd app loops]. repeat split.
  intros E. now apply app_eq_nil in E as [_ E].
Qed.





(** ** The lifecycle of an item *)

Section Lifecycle.

Implicit Types (ps : list GenerationPromise) (rs : list GenerationResult)
  (w : World) (s : App.t) (ev : Event) (evs : list Event)
  (imgs : list ProcessedImage.t) (img : ProcessedImage.t)
  (used : list jsstring) (ls : list (list GenerationPromise)).

Lemma NoDup_fmap_elem_inj {A B} (f : A → B) (l : list A) (x y : A) :
  NoDup (f <$> l) → x ∈ l → y ∈ l → f x = f y → x = y.
Proof.
  intros Hnd Hx Hy E.
  apply list_elem_of_lookup in Hx as [i Hi].
  apply list_elem_of_lookup in Hy as [j Hj].
  assert (i = j) as ->.
  { eapply NoDup_lookup; [exact Hnd| |].
    - rewrite list_lookup_fmap, Hi. reflexivity.
    - rewrite list_lookup_fmap, Hj. cbn. now rewrite E. }
  congruence.
Qed.

Lemma forward_refl (st : ImageStatus) : forward st st.
Proof. now left. Qed.

Lemma applyAll_images rs : ∀ s,
  App.images (foldl (λ s r, App.setImages (applyResult r) s) s rs)
  = applyAll rs (App.images s).
Proof.
  induction rs as [|r rs IH]; intros s; [reflexivity|].
  cbn. now rewrite IH.
Qed.

Lemma applyAll_ids rs : ∀ imgs,
  ProcessedImage.id <$> applyAll rs imgs = ProcessedImage.id <$> imgs.
Proof.
  induction rs as [|r rs IH]; intros imgs; [reflexivity|].
  cbn. unfold applyAll in IH. now rewrite IH, applyResult_ids.
Qed.

Lemma applyResult_elem (r : GenerationResult) imgs img' :
  img' ∈ applyResult r imgs →
  ∃ img, img ∈ imgs
    ∧ ProcessedImage.id img' = ProcessedImage.id img
    ∧ (img' = img
       ∨ (ProcessedImage.id img = result_id r
          ∧ ProcessedImage.status img' = result_status r)).
Proof.
  intros Hin. apply list_elem_of_fmap in Hin as (img & -> & Hin).
  exists img. split; [exact Hin|].
  destruct (decide _) as [E|E]; [|auto].
  rewrite spreadResult_id. split; [now symmetry|]. right.
  split; [exact E | now destruct r].
Qed.

Lemma result_status_terminal (r : GenerationResult) :
  result_status r = completed ∨ result_status r = error.
Proof. destruct r; auto. Qed.

Lemma applyAll_elem rs : ∀ imgs img',
  img' ∈ applyAll rs imgs →
  ∃ img, img ∈ imgs
    ∧ ProcessedImage.id img' = ProcessedImage.id img
    ∧ (img' = img
       ∨ (ProcessedImage.id img ∈ result_id <$> rs
          ∧ (ProcessedImage.status img' = completed
             ∨ ProcessedImage.status img' = error))).
Proof.
  induction rs as [|r rs IH]; intros imgs img' Hin.
  { exists img'. auto. }
  cbn in Hin. apply IH in Hin as (img1 & Hin1 & Eid & Hcase).
  apply applyResult_elem in Hin1 as (img & Hin & Eid1 & Hcase1).
  exists img. split; [exact Hin|]. split; [congruence|].
  destruct Hcase as [->|[Hr Hs]].
  - destruct Hcase1 as [->|[Hr Hs]]; [now left|]. right.
    split; [rewrite Hr; left|].
    rewrite Hs. apply result_status_terminal.
  - right. split; [|exact Hs]. rewrite <- Eid1. now right.
Qed.

Lemma pendingOf_app ls1 ls2 :
  pendingOf (ls1 ++ ls2) = pendingOf ls1 ++ pendingOf ls2.
Proof. unfold pendingOf. now rewrite fmap_app, join_app. Qed.

Lemma pendingOf_elem ls i :
  i ∈ pendingOf ls ↔ ∃ ps p, ps ∈ ls ∧ p ∈ ps ∧ promise_id p = i.
Proof.
  unfold pendingOf. rewrite list_elem_of_join. split.
  - intros (l & Hi & Hl). apply list_elem_of_fmap in Hl as (ps & -> & Hps).
    apply list_elem_of_fmap in Hi as (p & -> & Hp). eauto.
  - intros (ps & p & Hps & Hp & <-). exists (promise_id <$> ps).
    split; [now apply list_elem_of_fmap_2 | now apply list_elem_of_fmap_2].
Qed.

Lemma resumeLoop_spec ps s :
  (∀ p r, p ∈ ps → settled p = Some r → result_id r = promise_id p) →
  App.images (resumeLoop ps s).1.2 = applyAll (awaitSettled ps).1 (App.images s)
  ∧ (result_id <$> (awaitSettled ps).1) ++ pendingOf (resumeLoop ps s).1.1
    = promise_id <$> ps
  ∧ (∀ ps' p, ps' ∈ (resumeLoop ps s).1.1 → p ∈ ps' → p ∈ ps).
Proof.
  intros Hr. rewrite resumeLoop_loops.
  destruct (awaitSettled_split ps) as (m & Hd & Hres & _).
  split.
  { unfold resumeLoop. destruct (awaitSettled ps) as [rs [|p ps']]; cbn;
      apply applyAll_images. }
  assert (result_id <$> (awaitSettled ps).1 = promise_id <$> take m ps) as E.
  { apply settled_results_ids; [exact Hres|].
    intros p r Hp. apply Hr. eapply subseteq_take, Hp. }
  rewrite E, Hd. split.
  - rewrite <- (take_drop m ps) at 3. rewrite fmap_app. f_equal.
    unfold pendingOf. destruct (drop m ps); [reflexivity|].
    cbn. now rewrite app_nil_r.
  - intros ps' p Hps' Hp. destruct (drop m ps) as [|p1 rest] eqn:Ed.
    + inversion Hps'.
    + apply list_elem_of_singleton in Hps' as ->.
      rewrite <- Ed in Hp. eapply subseteq_drop, Hp.
Qed.

Lemma resumeLoops_spec ls : ∀ s,
  (∀ ps p r, ps ∈ ls → p ∈ ps → settled p = Some r →
             result_id r = promise_id p) →
  ∃ rs, App.images (resumeLoops ls s).1.2 = applyAll rs (App.images s)
      ∧ (result_id <$> rs) ++ pendingOf (resumeLoops ls s).1.1 ≡ₚ pendingOf ls
      ∧ (∀ ps' p, ps' ∈ (resumeLoops ls s).1.1 → p ∈ ps' →
                  ∃ ps, ps ∈ ls ∧ p ∈ ps).
Proof.
  induction ls as [|ps rest IH]; intros s Hr.
  { exists []. split; [reflexivity|]. split; [reflexivity|].
    intros ps' p Hps'. inversion Hps'. }
  cbn [resumeLoops].
  destruct (resumeLoop_spec ps s) as (H1 & H2 & H3).
  { intros p r. apply Hr. left. }
  destruct (resumeLoop ps s) as [[l1 s1] e1]. cbn [fst snd] in *.
  destruct (IH s1) as (rs2 & G1 & G2 & G3).
  { intros ps' p r Hps'. apply Hr. now right. }
  destruct (resumeLoops rest s1) as [[l2 s2] e2]. cbn [fst snd] in *.
  exists ((awaitSettled ps).1 ++ rs2). split; [|split].
  - rewrite G1, H1. unfold applyAll. now rewrite foldl_app.
  - rewrite fmap_app, pendingOf_app.
    change (pendingOf (ps :: rest))
      with ((promise_id <$> ps) ++ pendingOf rest).
    rewrite <- H2, <- G2.
    rewrite <- !app_assoc. apply Permutation_app_head.
    rewrite !app_assoc. apply Permutation_app_tail, Permutation_app_comm.
  - intros ps' p Hps' Hp. apply elem_of_app in Hps' as [Hps'|Hps'].
    + exists ps. split; [left | eapply H3; eauto].
    + destruct (G3 ps' p Hps' Hp) as (ps0 & Hps0 & Hp0).
      exists ps0. split; [now right | exact Hp0].
Qed.

End Lifecycle.

Section LifecycleSteps.

Implicit Types (ps : list GenerationPromise) (rs : list GenerationResult)
  (w : World) (s : App.t) (ev : Event) (evs : list Event)
  (imgs : list ProcessedImage.t) (img : ProcessedImage.t)
  (used : list jsstring) (ls : list (list GenerationPromise)).

Lemma promiseAll_resolves {A E} (ps : list (A + E)) (l : list A) :
  promiseAll ps = inl l → ∀ a, a ∈ l → inl a ∈ ps.
Proof.
  revert l. induction ps as [|[a|e] rest IH]; intros l Hl x Hx.
  - injection Hl as <-. inversion Hx.
  - cbn in Hl. destruct (promiseAll rest) as [l'|]; [|discriminate].
    injection Hl as <-. apply elem_of_cons in Hx as [->|Hx]; [left|].
    right. now apply (IH l').
  - discriminate.
Qed.

Lemma filePromise_queued (r : FileRead) img :
  filePromise r = inl img → ProcessedImage.status img = queued.
Proof.
  unfold filePromise. destruct (read_result r); [|discriminate].
  now intros [= <-].
Qed.

Lemma urlPromise_queued (u : UrlFetch) img :
  urlPromise_caught u = inl img → ProcessedImage.status img = queued.
Proof.
  unfold urlPromise_caught.
  destruct (negb (url_parses u)); [discriminate|].
  destruct (response u) as [r|]; [|discriminate].
  destruct (negb (ok r)); [discriminate|].
  destruct (contentType r) as [ct|]; [|discriminate].
  destruct (_ || _); [discriminate|].
  destruct (blob_read r); [|discriminate].
  now intros [= <-].
Qed.

Lemma enqueuedBy_queued ev img :
  img ∈ enqueuedBy ev → ProcessedImage.status img = queued.
Proof.
  destruct ev; cbn; try (intros H; now inversion H).
  - destruct (promiseAll _) as [l|] eqn:E; [|intros H; now inversion H].
    intros Hin. apply (promiseAll_resolves _ _ E) in Hin.
    apply list_elem_of_fmap in Hin as (r & Hr & _).
    now apply (filePromise_queued r).
  - destruct (promiseAll _) as [results|] eqn:E; [|intros H; now inversion H].
    unfold successfulFetches. intros Hin.
    apply list_elem_of_omap in Hin as ([img0|v] & Hin & [= <-]).
    apply (promiseAll_resolves _ _ E) in Hin.
    apply list_elem_of_fmap in Hin as (u & Hu & _).
    unfold urlPromise in Hu. destruct (JS.isWellFormed (url u)); [|discriminate].
    injection Hu as Hu. now apply (urlPromise_queued u).
Qed.

Lemma step_appends w ev :
  match ev with
  | GenerateAllNames | ServiceSettled _ _ | RemoveImage _ | ClearAll => False
  | _ => True
  end →
  loops (step w ev).1 = loops w
  ∧ App.images (app (step w ev).1) = App.images (app w) ++ enqueuedBy ev.
Proof.
  intros Hev. destruct ev; try done; cbn;
    (split; [try reflexivity|]); rewrite ?app_nil_r; try reflexivity.
  - now destruct files.
  - unfold handleDrop. destruct (_ || _); [reflexivity | now destruct files].
  - unfold processFiles_settled.
    destruct (promiseAll _); cbn; now rewrite ?app_nil_r.
  - unfold handleFetchFromUrls. now destruct (urlsOfInput _).
  - unfold handleFetchFromUrls_settled.
    destruct (promiseAll _) as [results|]; [|now rewrite app_nil_r].
    destruct (successfulFetches results), (failedFetches results); cbn;
      now rewrite ?app_nil_r.
  - unfold handleCopyAll. now destruct (JS.truthy _).
  - unfold handleCopyAll. now destruct (JS.truthy _).
  - now destruct cb.
Qed.

Lemma inv_append used w w' (new : list ProcessedImage.t) :
  worldInv used w →
  loops w' = loops w →
  App.images (app w') = App.images (app w) ++ new →
  (∀ img, img ∈ new → ProcessedImage.status img = queued) →
  NoDup (ProcessedImage.id <$> new) →
  (∀ i, i ∈ ProcessedImage.id <$> new → i ∉ used) →
  worldInv ((ProcessedImage.id <$> new) ++ used) w'
  ∧ movesForward (App.images (app w)) (App.images (app w'))
  ∧ entersQueued (App.images (app w)) (App.images (app w')).
Proof.
  intros [I1 I2 I3 I4 I5 I6] Hl Hi Hq Hnd Hfresh.
  assert (∀ img, img ∈ App.images (app w) → img ∉ new) as Hsep.
  { intros img Hin Hnew. eapply Hfresh; [|apply I4, Hin].
    now apply list_elem_of_fmap_2. }
  split; [split|split].
  - rewrite Hi, fmap_app. apply NoDup_app. split; [exact I1|].
    split; [|exact Hnd]. intros i Hi1 Hi2.
    apply list_elem_of_fmap in Hi1 as (img & -> & Hin).
    eapply Hfresh; [exact Hi2 | apply I4, Hin].
  - now rewrite Hl.
  - rewrite Hl, Hi. intros img Hin Hp. apply elem_of_app in Hin as [Hin|Hin].
    + now apply I3.
    + exfalso. eapply Hfresh; [|apply I5, Hp]. now apply list_elem_of_fmap_2.
  - rewrite Hi. intros img Hin. apply elem_of_app.
    apply elem_of_app in Hin as [Hin|Hin];
      [right; now apply I4 | left; now apply list_elem_of_fmap_2].
  - rewrite Hl. intros i Hp. apply elem_of_app. right. now apply I5.
  - rewrite Hl. exact I6.
  - rewrite Hi. intros img img' Hin Hin' E.
    apply elem_of_app in Hin' as [Hin'|Hin'].
    + rewrite (NoDup_fmap_elem_inj _ _ _ _ I1 Hin Hin' E). apply forward_refl.
    + exfalso. eapply Hfresh; [|apply I4, Hin].
      rewrite E. now apply list_elem_of_fmap_2.
  - rewrite Hi. intros img' Hin' Hnew.
    apply elem_of_app in Hin' as [Hin'|Hin']; [|now apply Hq].
    exfalso. now apply (Hnew img').
Qed.

Lemma inv_sublist used w w' :
  worldInv used w →
  loops w' = loops w →
  App.images (app w') `sublist_of` App.images (app w) →
  worldInv used w'
  ∧ movesForward (App.images (app w)) (App.images (app w'))
  ∧ entersQueued (App.images (app w)) (App.images (app w')).
Proof.
  intros [I1 I2 I3 I4 I5 I6] Hl Hsub.
  assert (∀ img, img ∈ App.images (app w') → img ∈ App.images (app w))
    as Hin by (intros img Hi; eapply elem_of_sublist; eauto).
  split; [split|split].
  - eapply sublist_NoDup; [exact I1|]. now apply fmap_sublist.
  - now rewrite Hl.
  - rewrite Hl. intros img Hi. apply I3, Hin, Hi.
  - intros img Hi. apply I4, Hin, Hi.
  - now rewrite Hl.
  - now rewrite Hl.
  - intros img img' Hi Hi' E.
    rewrite (NoDup_fmap_elem_inj _ _ _ _ I1 Hi (Hin _ Hi') E).
    apply forward_refl.
  - intros img' Hi' Hnew. exfalso. now apply (Hnew img' (Hin _ Hi')).
Qed.

End LifecycleSteps.

Section LifecycleBatch.

Implicit Types (ps : list GenerationPromise) (rs : list GenerationResult)
  (w : World) (s : App.t) (ev : Event) (evs : list Event)
  (imgs : list ProcessedImage.t) (img : ProcessedImage.t)
  (used : list jsstring) (ls : list (list GenerationPromise)).

Lemma generateAll_shape w :
  queuedImages (App.images (app w)) ≠ [] →
  App.images (app (step w GenerateAllNames).1) = flipQueued (App.images (app w))
  ∧ ∃ promises,
      loops (step w GenerateAllNames).1 = loops w ++ [promises]
      ∧ promise_id <$> promises
        = ProcessedImage.id <$> queuedImages (App.images (app w))
      ∧ ∀ p, p ∈ promises → settled p = None.
Proof.
  intros Hq. cbn [step]. unfold handleGenerateAllNames.
  destruct (queuedImages (App.images (app w))) as [|img q]; [done|].
  cbn [fst app loops]. split; [reflexivity|].
  eexists. split; [reflexivity|]. split.
  - rewrite fmap_imap.
    rewrite <- (imap_const ProcessedImage.id (img :: q)). now apply imap_ext.
  - intros p Hp. now apply elem_of_lookup_imap_1 in Hp as (k & x & -> & _).
Qed.

Lemma flipQueued_ids imgs :
  ProcessedImage.id <$> flipQueued imgs = ProcessedImage.id <$> imgs.
Proof.
  unfold flipQueued. rewrite <- list_fmap_compose.
  apply list_fmap_ext. intros _ img _. cbn. now destruct (decide _).
Qed.

Lemma flipQueued_elem imgs img' :
  img' ∈ flipQueued imgs →
  ∃ img, img ∈ imgs
    ∧ ProcessedImage.id img' = ProcessedImage.id img
    ∧ ((ProcessedImage.status img = queued
        ∧ ProcessedImage.status img' = generating)
       ∨ (ProcessedImage.status img ≠ queued ∧ img' = img)).
Proof.
  intros Hin. apply list_elem_of_fmap in Hin as (img & -> & Hin).
  exists img. split; [exact Hin|]. destruct (decide _) as [E|E]; cbn; auto.
Qed.

Lemma queuedImages_ids_NoDup imgs :
  NoDup (ProcessedImage.id <$> imgs) →
  NoDup (ProcessedImage.id <$> queuedImages imgs).
Proof.
  intros Hnd. eapply sublist_NoDup; [exact Hnd|].
  apply fmap_sublist, sublist_filter.
Qed.

Lemma pendingOf_singleton ps : pendingOf [ps] = promise_id <$> ps.
Proof. unfold pendingOf. cbn. apply app_nil_r. Qed.

Lemma inv_generate used w :
  worldInv used w →
  worldInv used (step w GenerateAllNames).1
  ∧ movesForward (App.images (app w))
      (App.images (app (step w GenerateAllNames).1))
  ∧ entersQueued (App.images (app w))
      (App.images (app (step w GenerateAllNames).1)).
Proof.
  intros Hinv.
  destruct (decide (queuedImages (App.images (app w)) = [])) as [Hq|Hq].
  { apply inv_sublist; [exact Hinv| |];
      cbn [step]; unfold handleGenerateAllNames; now rewrite Hq. }
  destruct (generateAll_shape w Hq) as (Hi & promises & Hl & Hids & Hnone).
  destruct Hinv as [I1 I2 I3 I4 I5 I6].
  assert (∀ i, i ∈ ProcessedImage.id <$> queuedImages (App.images (app w)) →
            ∃ img, img ∈ App.images (app w) ∧ ProcessedImage.id img = i
                   ∧ ProcessedImage.status img = queued) as Hqueued.
  { intros i Hin. apply list_elem_of_fmap in Hin as (img & -> & Hin).
    apply list_elem_of_filter in Hin as [Hs Hin]. eauto. }
  split; [split|split];
    rewrite ?Hi, ?Hl, ?pendingOf_app, ?pendingOf_singleton, ?Hids.
  - now rewrite flipQueued_ids.
  - apply NoDup_app. split; [exact I2|].
    split; [|now apply queuedImages_ids_NoDup].
    intros i Hp Hin. destruct (Hqueued i Hin) as (img & Hin' & <- & Hs).
    rewrite (I3 img Hin' Hp) in Hs. discriminate.
  - intros img' Hin' Hp.
    apply flipQueued_elem in Hin' as (img & Hin & E & [[_ Hs]|[Hs ->]]);
      [exact Hs|].
    apply elem_of_app in Hp as [Hp|Hp]; [now apply I3|].
    destruct (Hqueued _ Hp) as (img2 & Hin2 & E2 & Hs2).
    rewrite (NoDup_fmap_elem_inj _ _ _ _ I1 Hin2 Hin E2) in Hs2. done.
  - intros img' Hin'.
    apply flipQueued_elem in Hin' as (img & Hin & -> & _). now apply I4.
  - intros i Hp. apply elem_of_app in Hp as [Hp|Hp]; [now apply I5|].
    destruct (Hqueued _ Hp) as (img & Hin & <- & _). now apply I4.
  - intros ps p r Hps Hp Hs. apply elem_of_app in Hps as [Hps|Hps].
    + now apply (I6 ps).
    + apply list_elem_of_singleton in Hps as ->.
      rewrite (Hnone p Hp) in Hs. discriminate.
  - intros img img' Hin Hin' E.
    apply flipQueued_elem in Hin' as (img0 & Hin0 & E0 & Hcase).
    assert (img0 = img) as ->
      by (eapply (NoDup_fmap_elem_inj _ _ _ _ I1); [done..|congruence]).
    destruct Hcase as [[Hs Hs']|[_ ->]]; [|apply forward_refl].
    right. left. now split.
  - intros img' Hin' Hnew. exfalso.
    apply flipQueued_elem in Hin' as (img & Hin & E & _).
    now apply (Hnew img Hin).
Qed.

Lemma serviceSettled_proj h o w :
  app (serviceSettled h o w).1
  = (resumeLoops (fmap (M:=list) (fmap (M:=list) (settlePromise h o)) (loops w))
       (app w)).1.2
  ∧ loops (serviceSettled h o w).1
    = (resumeLoops (fmap (M:=list) (fmap (M:=list) (settlePromise h o)) (loops w))
         (app w)).1.1.
Proof.
  unfold serviceSettled. now destruct (resumeLoops _ _) as [[l1 s1] e1].
Qed.

Lemma pendingOf_settle h o ls :
  pendingOf (fmap (M:=list) (fmap (M:=list) (settlePromise h o)) ls)
  = pendingOf ls.
Proof.
  unfold pendingOf. rewrite <- list_fmap_compose. f_equal.
  apply list_fmap_ext. intros _ ps _. cbn. rewrite <- list_fmap_compose.
  apply list_fmap_ext. intros _ p _. apply settlePromise_id.
Qed.

Lemma inv_respond used w h o :
  worldInv used w →
  worldInv used (step w (ServiceSettled h o)).1
  ∧ movesForward (App.images (app w))
      (App.images (app (step w (ServiceSettled h o)).1))
  ∧ entersQueued (App.images (app w))
      (App.images (app (step w (ServiceSettled h o)).1)).
Proof.
  intros [I1 I2 I3 I4 I5 I6]. cbn [step].
  destruct (serviceSettled_proj h o w) as [Happ Hloops].
  set (ls := fmap (M:=list) (fmap (M:=list) (settlePromise h o)) (loops w))
    in *.
  assert (∀ ps p r, ps ∈ ls → p ∈ ps → settled p = Some r →
            result_id r = promise_id p) as Hcons.
  { intros ps' p' r Hps' Hp' Hs.
    apply list_elem_of_fmap in Hps' as (ps & -> & Hps).
    apply list_elem_of_fmap in Hp' as (p & -> & Hp).
    rewrite settlePromise_id. eapply settlePromise_result; [|exact Hs].
    intros r'. now apply (I6 ps). }
  destruct (resumeLoops_spec ls (app w) Hcons) as (rs & Himg & Hperm & Hmem).
  set (ls' := (resumeLoops ls (app w)).1.1) in *.
  unfold ls in Hperm. rewrite pendingOf_settle in Hperm.
  assert (NoDup ((result_id <$> rs) ++ pendingOf ls')) as Hnd
    by (now rewrite Hperm).
  apply NoDup_app in Hnd as (_ & Hdisj & Hnd').
  assert (∀ i, i ∈ pendingOf ls' → i ∈ pendingOf (loops w)) as Hsub.
  { intros i Hi. rewrite <- Hperm. apply elem_of_app. now right. }
  assert (∀ i, i ∈ result_id <$> rs → i ∈ pendingOf (loops w)) as Hsubr.
  { intros i Hi. rewrite <- Hperm. apply elem_of_app. now left. }
  split; [split|split]; rewrite ?Happ, ?Hloops, ?Himg.
  - now rewrite applyAll_ids.
  - exact Hnd'.
  - intros img' Hin' Hp.
    apply applyAll_elem in Hin' as (img & Hin & E & [->|[Hr _]]).
    + now apply I3, Hsub.
    + exfalso. apply (Hdisj _ Hr). now rewrite <- E.
  - intros img' Hin'.
    apply applyAll_elem in Hin' as (img & Hin & -> & _). now apply I4.
  - intros i Hi. apply I5, Hsub, Hi.
  - intros ps' p r Hps' Hp.
    destruct (Hmem ps' p Hps' Hp) as (ps0 & Hps0 & Hp0). now apply (Hcons ps0).
  - intros img img' Hin Hin' E.
    apply applyAll_elem in Hin' as (img0 & Hin0 & E0 & Hcase).
    assert (img0 = img) as ->
      by (eapply (NoDup_fmap_elem_inj _ _ _ _ I1); [done..|congruence]).
    destruct Hcase as [->|[Hr Hs]]; [apply forward_refl|].
    right. right. split; [|exact Hs]. now apply I3, Hsubr.
  - intros img' Hin' Hnew. exfalso.
    apply applyAll_elem in Hin' as (img & Hin & E & _).
    now apply (Hnew img Hin).
Qed.

End LifecycleBatch.

Section LifecycleRun.

Implicit Types (w : World) (ev : Event) (evs : list Event)
  (used : list jsstring).

Lemma step_inv used w ev :
  worldInv used w →
  NoDup (ProcessedImage.id <$> enqueuedBy ev) →
  (∀ i, i ∈ ProcessedImage.id <$> enqueuedBy ev → i ∉ used) →
  worldInv ((ProcessedImage.id <$> enqueuedBy ev) ++ used) (step w ev).1
  ∧ movesForward (App.images (app w)) (App.images (app (step w ev).1))
  ∧ entersQueued (App.images (app w)) (App.images (app (step w ev).1)).
Proof.
  intros Hinv Hnd Hfresh.
  match goal with
  | |- ?G =>
      assert (match ev with
              | GenerateAllNames | ServiceSettled _ _ | RemoveImage _
              | ClearAll => False
              | _ => True
              end → G) as Happend
  end.
  { intros Hev. destruct (step_appends w ev Hev) as [Hl Hi].
    apply (inv_append used w _ (enqueuedBy ev) Hinv Hl Hi);
      [apply enqueuedBy_queued | exact Hnd | exact Hfresh]. }
  destruct ev; try (apply Happend; exact I); clear Happend.
  - now apply inv_generate.
  - now apply inv_respond.
  - apply inv_sublist; [exact Hinv | reflexivity | apply sublist_filter].
  - apply inv_sublist; [exact Hinv | reflexivity | apply sublist_nil_l].
Qed.

Lemma worldInv_initial : worldInv [] initialWorld.
Proof.
  split; cbn; try apply NoDup_nil_2; intros; exfalso;
    eapply not_elem_of_nil; eassumption.
Qed.

Lemma drawnIds_cons ev evs :
  drawnIds (ev :: evs) = (ProcessedImage.id <$> enqueuedBy ev) ++ drawnIds evs.
Proof. reflexivity. Qed.

Lemma run_inv evs : ∀ used w,
  worldInv used w →
  NoDup (drawnIds evs) →
  (∀ i, i ∈ drawnIds evs → i ∉ used) →
  ∃ used', worldInv used' (run w evs).1
         ∧ ∀ i, i ∈ used' → i ∈ drawnIds evs ∨ i ∈ used.
Proof.
  induction evs as [|ev evs IH]; intros used w Hinv Hnd Hfresh.
  { exists used. split; [exact Hinv | auto]. }
  rewrite drawnIds_cons in Hnd, Hfresh.
  apply NoDup_app in Hnd as (Hnd1 & Hdisj & Hnd2).
  destruct (step_inv used w ev Hinv Hnd1) as (Hinv1 & _).
  { intros i Hi. apply Hfresh, elem_of_app. now left. }
  cbn [run]. destruct (step w ev) as [w1 e1]. cbn [fst] in Hinv1.
  destruct (IH _ w1 Hinv1 Hnd2) as (used' & Hinv' & Hused').
  { intros i Hi Hu. apply elem_of_app in Hu as [Hu|Hu].
    - now apply (Hdisj i).
    - apply (Hfresh i); [apply elem_of_app; now right | exact Hu]. }
  destruct (run w1 evs) as [w2 e2]. cbn [fst] in *.
  exists used'. split; [exact Hinv'|].
  intros i Hi. rewrite drawnIds_cons, elem_of_app.
  destruct (Hused' i Hi) as [?|Hu]; [auto|].
  apply elem_of_app in Hu as [?|?]; auto.
Qed.

(** C4. Take any sequence of events from the initial state in which the
    ids drawn for the items appended are pairwise distinct, and any one
    further event.  Every item that is in the list before that event and
    still in it after (the item of the same id) either keeps its status,
    or goes from queued to generating, or from generating to completed
    or to error; and every item that is in the list after it and was not
    before is queued. *)
Theorem status_moves_forward_only (evs : list Event) (ev : Event) :
  NoDup (drawnIds (evs ++ [ev])) →
  let w := (run initialWorld evs).1 in
  let w' := (step w ev).1 in
  movesForward (App.images (app w)) (App.images (app w'))
  ∧ entersQueued (App.images (app w)) (App.images (app w')).
Proof.
  intros Hnd. cbv zeta.
  unfold drawnIds in Hnd. rewrite fmap_app, join_app in Hnd.
  apply NoDup_app in Hnd as (Hnd1 & Hdisj & Hnd2).
  cbn in Hnd2, Hdisj. rewrite app_nil_r in Hnd2.
  destruct (run_inv evs [] initialWorld worldInv_initial Hnd1)
    as (used & Hinv & Hused).
  { intros i _. apply not_elem_of_nil. }
  destruct (step_inv used (run initialWorld evs).1 ev Hinv Hnd2)
    as (_ & Hf & Hq); [|now split].
  intros i Hi Hu. destruct (Hused i Hu) as [Hd|Hn].
  - apply (Hdisj i Hd). now rewrite app_nil_r.
  - now apply not_elem_of_nil in Hn.
Qed.

Lemma status_moves_forward_only_witness :
  movesForward
    (App.images (app (run initialWorld a_session).1))
    (App.images (app (step (run initialWorld a_session).1
                        (ServiceSettled 2 (ResponseText (JS.lit "Noon")))).1))
  ∧ entersQueued
      (App.images (app (run initialWorld a_session).1))
      (App.images (app (step (run initialWorld a_session).1
                          (ServiceSettled 2 (ResponseText (JS.lit "Noon")))).1)).
Proof.
  apply (status_moves_forward_only a_session
           (ServiceSettled 2 (ResponseText (JS.lit "Noon")))).
  apply (bool_decide_unpack _). vm_compute. exact I.
Defined.

End LifecycleRun.

(** ** Strings: trimming, splitting and joining *)

Section Strings.

Implicit Types (s t p d : jsstring) (c sep : N).

Lemma trimStart_nil_iff s : JS.trimStart s = [] ↔ allWhiteSpace s.
Proof.
  unfold allWhiteSpace. induction s as [|c r IH]; [now rewrite Forall_nil|].
  cbn [JS.trimStart]. rewrite Forall_cons.
  destruct (JS.isWhiteSpace c); [rewrite IH; tauto|].
  split; [discriminate | intros [? _]; discriminate].
Qed.

Lemma trimEnd_nil_iff s : JS.trimEnd s = [] ↔ allWhiteSpace s.
Proof.
  unfold allWhiteSpace. induction s as [|c r IH]; [now rewrite Forall_nil|].
  cbn [JS.trimEnd]. rewrite Forall_cons.
  destruct (JS.trimEnd r) as [|d t] eqn:E.
  - destruct (JS.isWhiteSpace c).
    + split; [intros _; split; [reflexivity | now apply IH] | reflexivity].
    + split; [discriminate | intros [? _]; discriminate].
  - split; [discriminate|]. intros [_ Hr]. apply IH in Hr. discriminate.
Qed.

Lemma trimStart_decompose s :
  ∃ w, s = w ++ JS.trimStart s ∧ allWhiteSpace w.
Proof.
  induction s as [|c r (w & E & Hw)];
    [exists []; split; [reflexivity | constructor]|].
  cbn [JS.trimStart]. destruct (JS.isWhiteSpace c) eqn:Hc.
  - exists (c :: w). split; [cbn; now f_equal | now constructor].
  - exists []. split; [reflexivity | constructor].
Qed.

Lemma trimEnd_decompose s :
  ∃ w, s = JS.trimEnd s ++ w ∧ allWhiteSpace w.
Proof.
  induction s as [|c r (w & E & Hw)];
    [exists []; split; [reflexivity | constructor]|].
  cbn [JS.trimEnd]. destruct (JS.trimEnd r) as [|d t] eqn:Et.
  - cbn in E. subst w. destruct (JS.isWhiteSpace c) eqn:Hc.
    + exists (c :: r). split; [reflexivity | now constructor].
    + exists r. split; [reflexivity | exact Hw].
  - exists w. split; [cbn; now f_equal | exact Hw].
Qed.

Lemma trim_nil_iff s : JS.trim s = [] ↔ allWhiteSpace s.
Proof.
  unfold JS.trim. rewrite trimEnd_nil_iff.
  destruct (trimStart_decompose s) as (w & E & Hw).
  split.
  - intros H. rewrite E. now apply Forall_app_2.
  - intros H. apply trimStart_nil_iff in H. rewrite H. constructor.
Qed.

Lemma split_nonempty sep s :
  ∃ (seg : jsstring) (segs : list jsstring), JS.split sep s = seg :: segs.
Proof.
  induction s as [|c r (h & t & E)]; [now exists [], []|].
  cbn [JS.split]. destruct (c =? sep); [eauto|]. rewrite E. eauto.
Qed.

Lemma split_Forall (P : N → Prop) sep s :
  P sep → Forall P s ↔ Forall (Forall P) (JS.split sep s).
Proof.
  intros Hsep. induction s as [|c r IH].
  { cbn. split; [repeat constructor | constructor]. }
  cbn [JS.split]. rewrite Forall_cons, IH.
  destruct (N.eqb_spec c sep) as [->|Hne].
  - rewrite Forall_cons. split; [intros [_ ?]; split; [constructor | done]|].
    intros [_ ?]. now split.
  - destruct (JS.split sep r) as [|h t]; [|rewrite !Forall_cons; tauto].
    rewrite Forall_cons, Forall_cons. split; [intros [? _]|intros [[? _] _]];
      repeat split; auto; constructor.
Qed.

Lemma split_segments_no_sep sep s seg :
  seg ∈ JS.split sep s → sep ∉ seg.
Proof.
  revert seg. induction s as [|c r IH]; intros seg Hin.
  { apply list_elem_of_singleton in Hin as ->. apply not_elem_of_nil. }
  cbn [JS.split] in Hin. destruct (N.eqb_spec c sep) as [->|Hne].
  - apply elem_of_cons in Hin as [->|Hin];
      [apply not_elem_of_nil | now apply IH].
  - destruct (JS.split sep r) as [|h t].
    + apply list_elem_of_singleton in Hin as ->.
      intros H. apply list_elem_of_singleton in H. congruence.
    + apply elem_of_cons in Hin as [->|Hin].
      * intros H. apply elem_of_cons in H as [?|H]; [congruence|].
        apply (IH h); [left | exact H].
      * apply IH. now right.
Qed.

Lemma split_segments_within sep s seg x :
  seg ∈ JS.split sep s → x ∈ seg → x ∈ s.
Proof.
  revert seg. induction s as [|c r IH]; intros seg Hin Hx.
  { apply list_elem_of_singleton in Hin as ->. now apply not_elem_of_nil in Hx. }
  cbn [JS.split] in Hin. destruct (c =? sep).
  - apply elem_of_cons in Hin as [->|Hin];
      [now apply not_elem_of_nil in Hx | right; eapply IH; eauto].
  - destruct (JS.split sep r) as [|h t].
    + apply list_elem_of_singleton in Hin as ->.
      apply list_elem_of_singleton in Hx as ->. left.
    + apply elem_of_cons in Hin as [->|Hin].
      * apply elem_of_cons in Hx as [->|Hx]; [left|].
        right. apply (IH h); [left | exact Hx].
      * right. apply (IH seg); [now right | exact Hx].
Qed.

Lemma split_app sep p d :
  sep ∉ p → JS.split sep (p ++ sep :: d) = p :: JS.split sep d.
Proof.
  induction p as [|c r IH]; intros Hp.
  - cbn. now rewrite N.eqb_refl.
  - apply not_elem_of_cons in Hp as [Hc Hr].
    change ((c :: r) ++ sep :: d) with (c :: (r ++ sep :: d)).
    cbn [JS.split]. destruct (N.eqb_spec c sep); [congruence|].
    now rewrite IH.
Qed.

Lemma split_join sep (parts : list jsstring) :
  parts ≠ [] → (∀ q, q ∈ parts → sep ∉ q) →
  JS.split sep (JS.join [sep] parts) = parts.
Proof.
  induction parts as [|q rest IH]; [done|]. intros _ Hparts.
  destruct rest as [|q' rest'].
  - cbn. apply split_absent, Hparts. left.
  - change (JS.join [sep] (q :: q' :: rest'))
      with (q ++ sep :: JS.join [sep] (q' :: rest')).
    rewrite split_app by (apply Hparts; left). f_equal.
    apply IH; [done|]. intros x Hx. apply Hparts. now right.
Qed.

Lemma trim_within s x : x ∈ JS.trim s → x ∈ s.
Proof.
  unfold JS.trim. intros Hx.
  destruct (trimStart_decompose s) as (w1 & E1 & _).
  destruct (trimEnd_decompose (JS.trimStart s)) as (w2 & E2 & _).
  rewrite E1, E2, !elem_of_app. auto.
Qed.

End Strings.

(** ** The URL text field *)

Lemma urlsOfInput_nil_iff (input : jsstring) :
  urlsOfInput input = [] ↔ allWhiteSpace input.
Proof.
  unfold urlsOfInput, allWhiteSpace.
  rewrite (split_Forall _ JS.newline input) by reflexivity.
  induction (JS.split JS.newline input) as [|line lines IH].
  { split; [constructor | reflexivity]. }
  cbn [fmap list_fmap List.filter]. rewrite Forall_cons, <- IH.
  fold (allWhiteSpace line). rewrite <- trim_nil_iff.
  destruct (JS.trim line); cbn; [tauto|].
  split; [discriminate | intros [? _]; discriminate].
Qed.

(** X1. The fetch handler starts a fetch pass exactly when the URL text
    holds something other than white space and line breaks: on a blank
    text it only sets the validation message (the fetching flag, the
    list and the text stay), otherwise it raises the fetching flag and
    clears the error text, and there is at least one URL to fetch. *)
Theorem handleFetchFromUrls_blank_iff_rejected (s : App.t) :
  (allWhiteSpace (App.urlInput s) →
     handleFetchFromUrls s
     = App.setError (JS.lit "Please enter at least one image URL.") s)
  ∧ (¬ allWhiteSpace (App.urlInput s) →
     handleFetchFromUrls s = App.setError [] (App.setIsFetchingUrl true s)
     ∧ urlsOfInput (App.urlInput s) ≠ []).
Proof.
  unfold handleFetchFromUrls. rewrite <- urlsOfInput_nil_iff. split.
  - now intros ->.
  - intros Hne. now destruct (urlsOfInput (App.urlInput s)).
Qed.

Lemma handleFetchFromUrls_blank_iff_rejected_witness :
  handleFetchFromUrls (App.setUrlInput blank_url_input App.initial)
  = App.setError (JS.lit "Please enter at least one image URL.")
      (App.setUrlInput blank_url_input App.initial).
Proof.
  apply (proj1 (handleFetchFromUrls_blank_iff_rejected
                  (App.setUrlInput blank_url_input App.initial))).
  repeat constructor.
Defined.

(** X2. Every URL the fetch handler takes from the text is a line of
    the text with the white space around it removed: it is not empty,
    trimming it again changes nothing, and it holds no line break. *)
Theorem urlsOfInput_are_trimmed_lines (input u : jsstring) :
  u ∈ urlsOfInput input →
  u ≠ [] ∧ JS.trim u = u ∧ (JS.newline ∉ u)
  ∧ ∃ line, line ∈ JS.split JS.newline input ∧ u = JS.trim line.
Proof.
  unfold urlsOfInput. intros Hin.
  apply list_elem_of_In, filter_In in Hin as [Hin Ht].
  apply list_elem_of_In, list_elem_of_fmap in Hin as (line & -> & Hline).
  split; [intros E; rewrite E in Ht; discriminate|].
  split; [apply trim_idem|].
  split; [|eauto].
  intros Hnl. apply trim_within in Hnl.
  now apply (split_segments_no_sep JS.newline input line).
Qed.

Lemma urlsOfInput_are_trimmed_lines_witness :
  JS.lit "https://a.example/x.png" ≠ []
  ∧ JS.trim (JS.lit "https://a.example/x.png") = JS.lit "https://a.example/x.png"
  ∧ (JS.newline ∉ JS.lit "https://a.example/x.png")
  ∧ ∃ line, line ∈ JS.split JS.newline two_url_lines
            ∧ JS.lit "https://a.example/x.png" = JS.trim line.
Proof.
  apply (urlsOfInput_are_trimmed_lines two_url_lines
           (JS.lit "https://a.example/x.png")).
  apply list_elem_of_lookup. exists 0%nat. reflexivity.
Defined.

(** ** Names and payloads cut out of URLs *)

Lemma substring_after_last (c : N) (s : jsstring) :
  (c ∉ JS.substring (JS.lastIndexOf c s + 1) s)
  ∧ ∀ x, x ∈ JS.substring (JS.lastIndexOf c s + 1) s → x ∈ s.
Proof.
  unfold JS.lastIndexOf, JS.substring.
  destruct (decide (c ∈ s)) as [Hin|Hout].
  - apply list_elem_of_split_r in Hin as (a & b & -> & Hb).
    rewrite lastIndexOf_from_last by (lia || done).
    replace (Z.to_nat (Z.max 0 (0 + Z.of_nat (length a) + 1)))
      with (length a + 1)%nat by lia.
    rewrite <- drop_drop, drop_app_length. cbn [drop].
    split; [exact Hb|]. intros x Hx. apply elem_of_app. right. now right.
  - rewrite lastIndexOf_from_absent by done. cbn. now split.
Qed.

(** X3. The display name derived from a URL is never empty and holds
    neither ['/'] nor ['?']. *)
Theorem fileNameOfUrl_is_a_plain_name (url : jsstring) :
  fileNameOfUrl url ≠ []
  ∧ (JS.slash ∉ fileNameOfUrl url)
  ∧ (JS.qmark ∉ fileNameOfUrl url).
Proof.
  unfold fileNameOfUrl.
  destruct (substring_after_last JS.slash url) as [Hslash Hwithin].
  set (t := JS.substring (JS.lastIndexOf JS.slash url + 1) url) in *.
  destruct (split_nonempty JS.qmark t) as (h & rest & E).
  assert (h ∈ JS.split JS.qmark t) as Hh by (rewrite E; left).
  rewrite E. cbn [head default]. unfold JS.or_else.
  destruct h as [|c h']; cbn [JS.truthy].
  - split; [discriminate|].
    split; apply (bool_decide_unpack _); vm_compute; exact I.
  - split; [discriminate|]. split.
    + intros Hx. apply Hslash.
      now apply (split_segments_within JS.qmark t (c :: h')).
    + now apply (split_segments_no_sep JS.qmark t).
Qed.

(** X4. The payload cut out of a data URL: when the part before the
    first comma holds no comma (it is the first part), the payload up
    to the next comma is kept, so a payload without comma is kept
    whole; a text without any comma has no payload at all
    ([undefined]). *)
Theorem base64OfDataUrl_is_second_segment (header payload : jsstring) :
  JS.comma ∉ header → JS.comma ∉ payload →
  base64OfDataUrl (header ++ JS.comma :: payload) = Some payload
  ∧ (∀ rest,
       base64OfDataUrl (header ++ JS.comma :: payload ++ JS.comma :: rest)
       = Some payload)
  ∧ base64OfDataUrl header = None.
Proof.
  intros Hh Hp. unfold base64OfDataUrl. split; [|split].
  - now rewrite split_app, split_absent.
  - intros rest. now rewrite split_app, split_app.
  - now rewrite split_absent.
Qed.

Lemma base64OfDataUrl_is_second_segment_witness :
  base64OfDataUrl (JS.lit "data:image/png;base64,AAAA") = Some (JS.lit "AAAA").
Proof.
  apply (base64OfDataUrl_is_second_segment
           (JS.lit "data:image/png;base64") (JS.lit "AAAA"));
    apply (bool_decide_unpack _); vm_compute; exact I.
Defined.

(** ** What cleaning removes *)

Lemma dropLeadingQuote_decompose (s : jsstring) :
  ∃ q, s = q ++ dropLeadingQuote s ∧ quoteOrNothing q.
Proof.
  destruct s as [|c r]; [exists []; split; [reflexivity | now left]|].
  cbn [dropLeadingQuote]. destruct (JS.isQuote c) eqn:Hc.
  - exists [c]. split; [reflexivity | right; eauto].
  - exists []. split; [reflexivity | now left].
Qed.

Lemma dropTrailingQuote_decompose (s : jsstring) :
  ∃ q, s = dropTrailingQuote s ++ q ∧ quoteOrNothing q.
Proof.
  destruct s as [|c r] using rev_ind;
    [exists []; split; [reflexivity | now left]|].
  rewrite dropTrailingQuote_snoc. destruct (JS.isQuote c) eqn:Hc.
  - exists [c]. split; [reflexivity | right; eauto].
  - exists []. split; [now rewrite app_nil_r | now left].
Qed.

(** X5. The name kept from a response is the response without some
    white space at its front and back and without at most one quote
    next to each: nothing inside the text is touched and nothing is
    added. *)
Theorem cleanName_removes_only_surroundings (raw : jsstring) :
  ∃ w1 q1 q2 w2,
    raw = w1 ++ q1 ++ cleanName raw ++ q2 ++ w2
    ∧ allWhiteSpace w1 ∧ allWhiteSpace w2
    ∧ quoteOrNothing q1 ∧ quoteOrNothing q2.
Proof.
  destruct (trimStart_decompose raw) as (w1 & E1 & Hw1).
  destruct (trimEnd_decompose (JS.trimStart raw)) as (w2 & E2 & Hw2).
  fold (JS.trim raw) in E2.
  destruct (dropLeadingQuote_decompose (JS.trim raw)) as (q1 & E3 & Hq1).
  destruct (dropTrailingQuote_decompose (dropLeadingQuote (JS.trim raw)))
    as (q2 & E4 & Hq2).
  exists w1, q1, q2, w2. repeat split; try assumption.
  unfold cleanName. rewrite replaceQuoteRegex_ends.
  rewrite E1 at 1. rewrite E2 at 1. rewrite E3 at 1. rewrite E4 at 1.
  now rewrite <- !app_assoc.
Qed.

(** ** Local files *)

Lemma filePromises_all_load (kept : list FileRead) :
  Forall (λ r, read_result r ≠ ReadFails) kept →
  ∃ new, promiseAll (filePromise <$> kept) = inl new
    ∧ ProcessedImage.id <$> new = read_id <$> kept
    ∧ ProcessedImage.name <$> new = (λ r, File.name (read_file r)) <$> kept
    ∧ ProcessedImage.mimeType <$> new
      = (λ r, File.type (read_file r)) <$> kept
    ∧ Forall freshlyQueued new.
Proof.
  induction 1 as [|r kept Hr _ (new & E & Hid & Hname & Hmime & Hq)].
  { exists []. repeat split. constructor. }
  cbn [fmap list_fmap promiseAll]. unfold filePromise at 1.
  destruct (read_result r) as [dataUrl|]; [|done].
  change (list_fmap _ _ filePromise kept) with (filePromise <$> kept).
  rewrite E. eexists. split; [reflexivity|].
  cbn. rewrite Hid, Hname, Hmime. repeat split.
  constructor; [repeat split | exact Hq].
Qed.

(** X6. A selection in which every image file can be read appends one
    queued item per image file, in the order of the selection, with the
    file's name and type and the id drawn for it; the files whose type
    does not begin with [image/] leave no item and raise no error,
    whatever a read of them would have given; the error text and the
    other fields of the state stay as they are. *)
Theorem processFiles_settled_keeps_image_files_only
    (reads : list FileRead) (s : App.t) :
  (∀ r, r ∈ reads → accepted r = true → read_result r ≠ ReadFails) →
  ∃ new,
    processFiles_settled reads s = App.setImages (λ prev, prev ++ new) s
    ∧ ProcessedImage.id <$> new = read_id <$> List.filter accepted reads
    ∧ ProcessedImage.name <$> new
      = (λ r, File.name (read_file r)) <$> List.filter accepted reads
    ∧ ProcessedImage.mimeType <$> new
      = (λ r, File.type (read_file r)) <$> List.filter accepted reads
    ∧ Forall freshlyQueued new
    ∧ App.error (processFiles_settled reads s) = App.error s.
Proof.
  intros Hload.
  destruct (filePromises_all_load (List.filter accepted reads))
    as (new & E & Hid & Hname & Hmime & Hq).
  { apply Forall_forall. intros r Hr.
    apply list_elem_of_In, filter_In in Hr as [Hr Ha].
    apply Hload; [now apply list_elem_of_In | exact Ha]. }
  exists new. unfold processFiles_settled, filePromises. rewrite E.
  repeat split; assumption.
Qed.

Lemma processFiles_settled_keeps_image_files_only_witness :
  ∃ new,
    processFiles_settled mixed_selection App.initial
    = App.setImages (λ prev, prev ++ new) App.initial
    ∧ ProcessedImage.id <$> new
      = read_id <$> List.filter accepted mixed_selection
    ∧ ProcessedImage.name <$> new
      = (λ r, File.name (read_file r)) <$> List.filter accepted mixed_selection
    ∧ ProcessedImage.mimeType <$> new
      = (λ r, File.type (read_file r)) <$> List.filter accepted mixed_selection
    ∧ Forall freshlyQueued new
    ∧ App.error (processFiles_settled mixed_selection App.initial)
      = App.error App.initial.
Proof.
  apply (processFiles_settled_keeps_image_files_only mixed_selection
           App.initial).
  intros r Hr Ha. apply list_elem_of_In in Hr. simpl in Hr.
  destruct Hr as [<-|[<-|[<-|[]]]]; discriminate.
Defined.

(** ** Remove and clear *)

Lemma setImages_same (s : App.t) (f : list ProcessedImage.t → list ProcessedImage.t) :
  f (App.images s) = App.images s → App.setImages f s = s.
Proof. destruct s. unfold App.setImages. cbn. now intros ->. Qed.

Lemma filter_all {A} (P : A → Prop) `{∀ x, Decision (P x)} (l : list A) :
  (∀ x, x ∈ l → P x) → filter P l = l.
Proof.
  induction l as [|x l IH]; intros Hall; [reflexivity|].
  rewrite filter_cons_True by (apply Hall; left).
  f_equal. apply IH. intros y Hy. apply Hall. now right.
Qed.

Lemma remove_one_length (id : jsstring) (l : list ProcessedImage.t) :
  NoDup (ProcessedImage.id <$> l) →
  id ∈ ProcessedImage.id <$> l →
  S (length (filter (λ img, ProcessedImage.id img ≠ id) l)) = length l.
Proof.
  induction l as [|x l IH]; intros Hnd Hin; [now apply not_elem_of_nil in Hin|].
  cbn in Hnd. apply NoDup_cons in Hnd as [Hx Hnd].
  destruct (decide (ProcessedImage.id x = id)) as [E|E].
  - rewrite filter_cons_False by (intros Hne; now apply Hne).
    rewrite filter_all; [reflexivity|].
    intros y Hy Ey. apply Hx. rewrite E, <- Ey.
    now apply list_elem_of_fmap_2.
  - rewrite filter_cons_True by exact E. cbn. f_equal. apply IH; [exact Hnd|].
    cbn in Hin. apply elem_of_cons in Hin as [Hin|Hin]; [congruence | exact Hin].
Qed.

(** X7. Removing by id keeps exactly the items of another id, in their
    order and as they are, and touches nothing else of the state; with
    an id that no item has the state is unchanged; with distinct ids
    and an id that some item has, the list gets shorter by exactly
    one. *)
Theorem removeImage_removes_exactly_that_item (id : jsstring) (s : App.t) :
  (∀ img, img ∈ App.images (removeImage id s)
          ↔ img ∈ App.images s ∧ ProcessedImage.id img ≠ id)
  ∧ App.images (removeImage id s) `sublist_of` App.images s
  ∧ ((∀ img, img ∈ App.images s → ProcessedImage.id img ≠ id) →
     removeImage id s = s)
  ∧ (NoDup (ProcessedImage.id <$> App.images s) →
     id ∈ ProcessedImage.id <$> App.images s →
     S (length (App.images (removeImage id s))) = length (App.images s))
  ∧ App.isLoading (removeImage id s) = App.isLoading s
  ∧ App.error (removeImage id s) = App.error s
  ∧ App.copiedStates (removeImage id s) = App.copiedStates s.
Proof.
  split.
  { intros img. cbn. rewrite list_elem_of_filter. tauto. }
  split; [apply sublist_filter|].
  split.
  { intros Hnone. apply setImages_same. now apply filter_all. }
  split; [apply remove_one_length|].
  repeat split.
Qed.

Lemma removeImage_removes_exactly_that_item_witness :
  S (length (App.images (removeImage (JS.lit "1-0.2") dawn_and_unnamed)))
  = length (App.images dawn_and_unnamed).
Proof.
  apply (proj1 (proj2 (proj2 (proj2
           (removeImage_removes_exactly_that_item (JS.lit "1-0.2")
              dawn_and_unnamed)))));
    apply (bool_decide_unpack _); vm_compute; exact I.
Defined.

Lemma applyAll_nil (rs : list GenerationResult) : applyAll rs [] = [].
Proof. induction rs as [|r rs IH]; [reflexivity | exact IH]. Qed.

Lemma resumeLoop_images (ps : list GenerationPromise) (s : App.t) :
  App.images (resumeLoop ps s).1.2
  = applyAll (awaitSettled ps).1 (App.images s).
Proof.
  unfold resumeLoop. destruct (awaitSettled ps) as [rs [|p ps']]; cbn;
    apply applyAll_images.
Qed.

Lemma resumeLoops_images_nil (ls : list (list GenerationPromise)) : ∀ s,
  App.images s = [] → App.images (resumeLoops ls s).1.2 = [].
Proof.
  induction ls as [|ps rest IH]; intros s Hs; [exact Hs|].
  cbn [resumeLoops]. pose proof (resumeLoop_images ps s) as H1.
  destruct (resumeLoop ps s) as [[l1 s1] e1]. cbn [fst snd] in *.
  rewrite Hs, applyAll_nil in H1. specialize (IH s1 H1).
  now destruct (resumeLoops rest s1) as [[l2 s2] e2].
Qed.

Lemma step_images_stay_empty (w : World) (ev : Event) :
  App.images (app w) = [] → enqueuedBy ev = [] →
  App.images (app (step w ev).1) = [].
Proof.
  intros Hw Hev.
  assert (match ev with
          | GenerateAllNames | ServiceSettled _ _ | RemoveImage _
          | ClearAll => False
          | _ => True
          end → App.images (app (step w ev).1) = []) as Happend.
  { intros H. destruct (step_appends w ev H) as [_ ->]. now rewrite Hw, Hev. }
  destruct ev; try (apply Happend; exact I); clear Happend.
  - cbn [step]. unfold handleGenerateAllNames. rewrite Hw. exact Hw.
  - cbn [step]. destruct (serviceSettled_proj h o w) as [-> _].
    now apply resumeLoops_images_nil.
  - cbn. now rewrite Hw.
  - reflexivity.
Qed.

(** X8. After clear-all the list is empty and stays empty as long as no
    ingestion succeeds: the answers to calls made before the clearing,
    in whatever order they come, put nothing back. *)
Theorem cleared_list_stays_empty (w : World) (evs : list Event) :
  Forall (λ ev, enqueuedBy ev = []) evs →
  App.images (app (run (step w ClearAll).1 evs).1) = [].
Proof.
  assert (∀ w', App.images (app w') = [] →
            Forall (λ ev, enqueuedBy ev = []) evs →
            App.images (app (run w' evs).1) = []) as Hrun.
  { induction evs as [|ev evs IH]; intros w' Hw' Hall; [exact Hw'|].
    apply Forall_cons in Hall as [Hev Hall]. cbn [run].
    pose proof (step_images_stay_empty w' ev Hw' Hev) as H1.
    destruct (step w' ev) as [w1 e1]. cbn [fst] in H1.
    specialize (IH w1 H1 Hall). now destruct (run w1 evs) as [w2 e2]. }
  intros Hall. now apply Hrun.
Qed.

Lemma cleared_list_stays_empty_witness :
  App.images
    (app (run (step (step two_queued GenerateAllNames).1 ClearAll).1
            answered_in_reverse).1) = [].
Proof.
  apply (cleared_list_stays_empty (step two_queued GenerateAllNames).1
           answered_in_reverse).
  repeat constructor.
Defined.

(** ** Remote URLs *)

Lemma urlPromise_fails_with_url (u : UrlFetch) (v : jsstring) :
  urlPromise_caught u = inr v → v = url u.
Proof.
  unfold urlPromise_caught.
  destruct (negb (url_parses u)); [now intros [= <-]|].
  destruct (response u) as [r|]; [|now intros [= <-]].
  destruct (negb (ok r)); [now intros [= <-]|].
  destruct (contentType r) as [ct|]; [|now intros [= <-]].
  destruct (_ || _); [now intros [= <-]|].
  destruct (blob_read r); [discriminate | now intros [= <-]].
Qed.

Lemma startsWith_imagePrefix_truthy (ct : jsstring) :
  JS.startsWith imagePrefix ct = true → JS.truthy ct = true.
Proof. destruct ct; [discriminate | reflexivity]. Qed.

Lemma urlPromise_resolves_iff (u : UrlFetch) (img : ProcessedImage.t) :
  urlPromise_caught u = inl img ↔
  url_parses u = true
  ∧ ∃ r ct dataUrl,
      response u = Some r ∧ ok r = true
      ∧ contentType r = Some ct ∧ JS.startsWith imagePrefix ct = true
      ∧ blob_read r = Loaded dataUrl
      ∧ img = {| ProcessedImage.id := fetch_id u;
                 ProcessedImage.base64 := base64OfDataUrl dataUrl;
                 ProcessedImage.mimeType := blob_type r;
                 ProcessedImage.name := fileNameOfUrl (url u);
                 ProcessedImage.status := queued;
                 ProcessedImage.suggestedName := None;
                 ProcessedImage.error := None |}.
Proof.
  split.
  - unfold urlPromise_caught.
    destruct (url_parses u); [|discriminate]. cbn [negb].
    destruct (response u) as [r|]; [|discriminate].
    destruct (ok r) eqn:Hok; [|discriminate]. cbn [negb].
    destruct (contentType r) as [ct|] eqn:Hct; [|discriminate].
    destruct (JS.truthy ct); [|discriminate].
    destruct (JS.startsWith imagePrefix ct) eqn:Hst; [|discriminate].
    cbn [negb orb].
    destruct (blob_read r) as [d|] eqn:Hd; [|discriminate].
    intros [= <-]. split; [reflexivity|]. exists r, ct, d. repeat split; auto.
  - intros (Hp & r & ct & d & Hr & Hok & Hct & Hst & Hd & ->).
    unfold urlPromise_caught.
    rewrite Hp, Hr, Hok, Hct, Hst, (startsWith_imagePrefix_truthy ct Hst), Hd.
    reflexivity.
Qed.

Lemma urlPromise_well_formed (u : UrlFetch) :
  JS.isWellFormed (url u) = true → urlPromise u = inl (urlPromise_caught u).
Proof. unfold urlPromise. now intros ->. Qed.

Lemma urlPromise_lone_surrogate (u : UrlFetch) :
  JS.isWellFormed (url u) = false ↔ urlPromise u = inr URIMalformed.
Proof. unfold urlPromise. now destruct (JS.isWellFormed (url u)). Qed.

(** X9. A URL yields an item exactly when its text holds no lone
    surrogate, it parses, the relay answers with an ok status and a
    content type beginning with [image/], and the body can be read; the
    item is then queued, named after the URL, and carries the media
    type of the body (not the header) and the payload of its data URL.
    A URL without lone surrogate that yields no item fails, and the
    failure carries that URL.  A URL with a lone surrogate makes the
    promise of its callback reject: [encodeURIComponent] throws before
    the [try] is entered. *)
Theorem urlPromise_queues_images_only (u : UrlFetch) (img : ProcessedImage.t) :
  (urlPromise u = inl (inl img) ↔
   JS.isWellFormed (url u) = true
   ∧ url_parses u = true
   ∧ ∃ r ct dataUrl,
       response u = Some r ∧ ok r = true
       ∧ contentType r = Some ct ∧ JS.startsWith imagePrefix ct = true
       ∧ blob_read r = Loaded dataUrl
       ∧ img = {| ProcessedImage.id := fetch_id u;
                  ProcessedImage.base64 := base64OfDataUrl dataUrl;
                  ProcessedImage.mimeType := blob_type r;
                  ProcessedImage.name := fileNameOfUrl (url u);
                  ProcessedImage.status := queued;
                  ProcessedImage.suggestedName := None;
                  ProcessedImage.error := None |})
  ∧ (JS.isWellFormed (url u) = true →
     (∀ img', urlPromise u ≠ inl (inl img')) →
     urlPromise u = inl (inr (url u)))
  ∧ (JS.isWellFormed (url u) = false ↔ urlPromise u = inr URIMalformed).
Proof.
  split; [|split; [|apply urlPromise_lone_surrogate]].
  - rewrite <- urlPromise_resolves_iff. unfold urlPromise.
    destruct (JS.isWellFormed (url u)).
    + split; [intros [= E]; now split | intros [_ ->]; reflexivity].
    + split; [discriminate | intros [? _]; discriminate].
  - intros Hwf Hno. rewrite (urlPromise_well_formed u Hwf) in *.
    destruct (urlPromise_caught u) as [img'|v] eqn:E.
    + now destruct (Hno img').
    + now rewrite (urlPromise_fails_with_url u v E).
Qed.

Lemma urlPromise_queues_images_only_witness :
  urlPromise lone_surrogate_fetch = inr URIMalformed.
Proof.
  apply (proj1 (proj2 (proj2 (urlPromise_queues_images_only
                                 lone_surrogate_fetch a_png_failed)))).
  reflexivity.
Defined.

Lemma fetch_partition (results : list (ProcessedImage.t + jsstring)) :
  (length (successfulFetches results) + length (failedFetches results))%nat
  = length results.
Proof.
  unfold successfulFetches, failedFetches.
  induction results as [|[img|v] rest IH]; cbn; lia.
Qed.

Lemma promiseAll_all_resolve {A E} (l : list A) :
  promiseAll (inl <$> l) = inl (B:=E) l.
Proof.
  induction l as [|a l IH]; [reflexivity|]. cbn.
  change (list_fmap A (A + E)%type inl l) with (inl (B:=E) <$> l).
  now rewrite IH.
Qed.

Lemma urlPromises_all_well_formed (fetches : list UrlFetch) :
  Forall (λ u, JS.isWellFormed (url u) = true) fetches →
  promiseAll (urlPromise <$> fetches) = inl (urlPromise_caught <$> fetches).
Proof.
  intros Hwf.
  replace (urlPromise <$> fetches)
    with (inl (B:=URIError) <$> (urlPromise_caught <$> fetches)).
  { apply promiseAll_all_resolve. }
  rewrite <- list_fmap_compose. apply Forall_fmap_ext_1.
  eapply Forall_impl; [exact Hwf|]. intros u Hu. cbn.
  now rewrite (urlPromise_well_formed u Hu).
Qed.

Lemma urlPromises_one_rejects (fetches : list UrlFetch) :
  Exists (λ u, JS.isWellFormed (url u) = false) fetches →
  ∃ e, promiseAll (urlPromise <$> fetches) = inr e.
Proof.
  intros Hex. apply Exists_exists in Hex as (u & Hu & Hbad).
  destruct (promiseAll_rejects (urlPromise <$> fetches)) as (e & He & _).
  { exists URIMalformed. apply list_elem_of_fmap. exists u.
    split; [|exact Hu]. symmetry. now apply urlPromise_lone_surrogate. }
  eauto.
Qed.

(** X10. When a fetch pass ends and no URL of the pass holds a lone
    surrogate, every URL has become either one appended item or one
    entry of the failed list; the appended items are queued and come
    after the items already there; the error text is the aggregate
    message when some URL failed and is left as it was otherwise; the
    URL text is emptied and the fetching flag lowered in both cases.
    When some URL of the pass holds a lone surrogate the pass ends
    without any of this: the state stays as it was, with nothing
    appended, the URL text kept and the fetching flag not lowered. *)
Theorem handleFetchFromUrls_settled_sorts_every_url
    (fetches : list UrlFetch) (s : App.t) :
  (Forall (λ u, JS.isWellFormed (url u) = true) fetches →
   let results := urlPromise_caught <$> fetches in
   let s' := handleFetchFromUrls_settled fetches s in
   App.images s' = App.images s ++ successfulFetches results
   ∧ (length (successfulFetches results) + length (failedFetches results))%nat
     = length fetches
   ∧ Forall (λ img, ProcessedImage.status img = queued)
       (successfulFetches results)
   ∧ (∀ v, v ∈ failedFetches results → v ∈ url <$> fetches)
   ∧ App.error s'
     = match failedFetches results with
       | [] => App.error s
       | _ :: _ => fetchErrorMessage (failedFetches results)
       end
   ∧ App.urlInput s' = []
   ∧ App.isFetchingUrl s' = false
   ∧ App.isLoading s' = App.isLoading s)
  ∧ (Exists (λ u, JS.isWellFormed (url u) = false) fetches →
     handleFetchFromUrls_settled fetches s = s).
Proof.
  split.
  - intros Hwf. cbv zeta. unfold handleFetchFromUrls_settled.
    rewrite (urlPromises_all_well_formed fetches Hwf).
    split.
    { destruct (successfulFetches _), (failedFetches _); cbn;
        now rewrite ?app_nil_r. }
    split; [now rewrite fetch_partition, length_fmap|].
    split.
    { apply Forall_forall. intros img Hin. unfold successfulFetches in Hin.
      apply list_elem_of_omap in Hin as ([img0|v] & Hin & [= <-]).
      apply list_elem_of_fmap in Hin as (u & Hu & _).
      symmetry in Hu. now apply (urlPromise_queued u). }
    split.
    { intros v Hv. unfold failedFetches in Hv.
      apply list_elem_of_omap in Hv as ([img|v'] & Hin & [= <-]).
      apply list_elem_of_fmap in Hin as (u & Hu & Hin).
      symmetry in Hu. apply urlPromise_fails_with_url in Hu as ->.
      now apply list_elem_of_fmap_2. }
    destruct (successfulFetches _), (failedFetches _); repeat split.
  - intros Hex. unfold handleFetchFromUrls_settled.
    now destruct (urlPromises_one_rejects fetches Hex) as (e & ->).
Qed.

Lemma handleFetchFromUrls_settled_sorts_every_url_witness :
  handleFetchFromUrls_settled [c_jpg_fetch; lone_surrogate_fetch]
    (handleFetchFromUrls (App.setUrlInput two_url_lines App.initial))
  = handleFetchFromUrls (App.setUrlInput two_url_lines App.initial).
Proof.
  apply (proj2 (handleFetchFromUrls_settled_sorts_every_url
                  [c_jpg_fetch; lone_surrogate_fetch]
                  (handleFetchFromUrls
                     (App.setUrlInput two_url_lines App.initial)))).
  apply Exists_cons_tl, Exists_cons_hd. reflexivity.
Defined.

Lemma join_contains (sep : jsstring) (parts : list jsstring) (p : jsstring) :
  p ∈ parts → ∃ pre post, JS.join sep parts = pre ++ p ++ post.
Proof.
  induction parts as [|q rest IH]; intros Hin; [now apply not_elem_of_nil in Hin|].
  destruct rest as [|q' rest'].
  - apply list_elem_of_singleton in Hin as ->. exists [], []. cbn.
    now rewrite app_nil_r.
  - change (JS.join sep (q :: q' :: rest'))
      with (q ++ sep ++ JS.join sep (q' :: rest')).
    apply elem_of_cons in Hin as [->|Hin].
    + exists [], (sep ++ JS.join sep (q' :: rest')). reflexivity.
    + destruct (IH Hin) as (pre & post & ->).
      exists (q ++ sep ++ pre), post. now rewrite <- !app_assoc.
Qed.

Lemma contains_after {A} (h x p : list A) :
  (∃ pre post, x = pre ++ p ++ post) → ∃ pre post, h ++ x = pre ++ p ++ post.
Proof.
  intros (pre & post & ->). exists (h ++ pre), post. now rewrite <- app_assoc.
Qed.

(** X11. The aggregate message opens with the number of failed URLs
    and, for every failed URL, holds the line made of a dash, a space
    and that URL. *)
Theorem fetchErrorMessage_names_every_failed_url
    (failed : list jsstring) (v : jsstring) :
  v ∈ failed →
  (∃ rest, fetchErrorMessage failed
           = JS.lit "Could not fetch " ++ JS.decimal (length failed)
             ++ JS.lit " image(s)." ++ rest)
  ∧ ∃ pre post, fetchErrorMessage failed = pre ++ (JS.lit "- " ++ v) ++ post.
Proof.
  intros Hv. unfold fetchErrorMessage. split.
  - eexists. do 2 f_equal.
  - destruct (join_contains [JS.newline] ((λ u, JS.lit "- " ++ u) <$> failed)
                (JS.lit "- " ++ v)) as (pre & post & ->).
    { now apply (list_elem_of_fmap_2 (λ u, JS.lit "- " ++ u)). }
    do 8 apply contains_after. eauto.
Qed.

Lemma fetchErrorMessage_names_every_failed_url_witness :
  (∃ rest, fetchErrorMessage [url page_fetch]
           = JS.lit "Could not fetch " ++ JS.decimal 1
             ++ JS.lit " image(s)." ++ rest)
  ∧ ∃ pre post,
      fetchErrorMessage [url page_fetch]
      = pre ++ (JS.lit "- " ++ url page_fetch) ++ post.
Proof.
  apply (fetchErrorMessage_names_every_failed_url [url page_fetch]
           (url page_fetch)).
  left.
Defined.

(** ** Copying *)

(** X12. Copy-one writes the given text, marks the indicator of that id
    and of no other key, leaves the list alone, and sets a timer of
    2000 ms whose callback turns that id's indicator to false, again
    touching no other key. *)
Theorem handleCopyToClipboard_marks_one_id (id text : jsstring) (s : App.t) :
  let s' := (handleCopyToClipboard id text s).1 in
  (handleCopyToClipboard id text s).2
  = [ClipboardWriteText text; SetTimeout (CopiedFalse id) 2000]
  ∧ App.copiedStates s' !! id = Some true
  ∧ (∀ k, k ≠ id → App.copiedStates s' !! k = App.copiedStates s !! k)
  ∧ App.images s' = App.images s
  ∧ App.copiedStates (runTimer (CopiedFalse id) s') !! id = Some false
  ∧ (∀ k, k ≠ id →
       App.copiedStates (runTimer (CopiedFalse id) s') !! k
       = App.copiedStates s !! k).
Proof.
  cbv zeta. cbn. split; [reflexivity|].
  split; [apply lookup_insert_eq|].
  split; [intros k Hk; now apply lookup_insert_ne|].
  split; [reflexivity|].
  split; [apply lookup_insert_eq|].
  intros k Hk. now rewrite !lookup_insert_ne.
Qed.

(** X13. The aggregate indicator replaces the whole record of
    indicators: after a copy-all that copies, and after its timer has
    fired in any state, no per-item key is left.  So a per-item
    indicator raised by copy-one is gone as soon as a copy-all timer
    fires, before its own timer does. *)
Theorem copy_all_forgets_item_indicators (s : App.t) (k : jsstring) :
  k ≠ allKey →
  (textToCopy (App.images s) ≠ [] →
     App.copiedStates (handleCopyAll s).1 !! k = None)
  ∧ App.copiedStates (runTimer CopiedAllFalse s) !! k = None
  ∧ (∀ text,
       App.copiedStates
         (runTimer CopiedAllFalse (handleCopyToClipboard k text s).1) !! k
       = None).
Proof.
  intros Hk. split; [|split].
  - intros Ht. unfold handleCopyAll.
    destruct (textToCopy (App.images s)); [done|].
    change (({[ allKey := true ]} : gmap jsstring bool) !! k = None).
    apply lookup_singleton_ne. congruence.
  - change (({[ allKey := false ]} : gmap jsstring bool) !! k = None).
    apply lookup_singleton_ne. congruence.
  - intros text.
    change (({[ allKey := false ]} : gmap jsstring bool) !! k = None).
    apply lookup_singleton_ne. congruence.
Qed.

Lemma copy_all_forgets_item_indicators_witness :
  App.copiedStates
    (runTimer CopiedAllFalse
       (handleCopyToClipboard (JS.lit "1-0.1") (JS.lit "Dawn")
          dawn_and_unnamed).1) !! JS.lit "1-0.1"
  = None.
Proof.
  refine (proj2 (proj2 (copy_all_forgets_item_indicators dawn_and_unnamed
                          (JS.lit "1-0.1") _)) (JS.lit "Dawn")).
  discriminate.
Defined.

Lemma listingLine_no_newline (img : ProcessedImage.t) :
  JS.newline ∉ ProcessedImage.name img →
  JS.newline ∉ JS.template (ProcessedImage.suggestedName img) →
  JS.newline ∉ listingLine img.
Proof.
  intros Hn Hs. unfold listingLine. rewrite !not_elem_of_app.
  split; [exact Hn|]. split; [|exact Hs].
  apply (bool_decide_unpack _). vm_compute. exact I.
Qed.

(** X14. When no listed item has a line break in its name or in its
    suggested name: if some item is listed, the text copy-all builds has
    exactly one line per listed item, and splitting it at line breaks
    gives back the lines [name: suggestedName] of the completed items
    with a non-empty name, in list order; if no item is listed, the text
    is empty, and splitting it gives the single empty line. *)
Theorem textToCopy_has_one_line_per_item (images : list ProcessedImage.t) :
  (∀ img, img ∈ listedImages images →
     (JS.newline ∉ ProcessedImage.name img)
     ∧ (JS.newline ∉ JS.template (ProcessedImage.suggestedName img))) →
  JS.split JS.newline (textToCopy images)
  = match listedImages images with
    | [] => [[]]
    | _ :: _ => listingLine <$> listedImages images
    end
  ∧ (listedImages images ≠ [] →
     length (JS.split JS.newline (textToCopy images))
     = length (listedImages images))
  ∧ (listedImages images = [] → textToCopy images = []).
Proof.
  intros Hnl.
  assert (listedImages images ≠ [] →
          JS.split JS.newline (textToCopy images)
          = listingLine <$> listedImages images) as E.
  { intros Hne. rewrite textToCopy_namedListing. unfold namedListing.
    fold (listedImages images). apply split_join.
    - intros E. now apply fmap_nil_inv in E.
    - intros q Hq. apply list_elem_of_fmap in Hq as (img & -> & Hin).
      destruct (Hnl img Hin). now apply listingLine_no_newline. }
  assert (listedImages images = [] → textToCopy images = []) as Hempty.
  { intros Hnil. rewrite textToCopy_namedListing. unfold namedListing.
    fold (listedImages images). now rewrite Hnil. }
  split; [|split; [|exact Hempty]].
  - destruct (listedImages images) as [|img rest] eqn:El.
    + now rewrite Hempty.
    + now apply E.
  - intros Hne. now rewrite (E Hne), length_fmap.
Qed.

Lemma textToCopy_has_one_line_per_item_witness :
  JS.split JS.newline (textToCopy (App.images dawn_and_dusk))
  = [JS.lit "a.png: Dawn"; JS.lit "b.png: Dusk"].
Proof.
  assert (∀ img, img ∈ listedImages (App.images dawn_and_dusk) →
            (JS.newline ∉ ProcessedImage.name img)
            ∧ (JS.newline ∉ JS.template (ProcessedImage.suggestedName img)))
    as Hnl.
  { intros img Hin. vm_compute in Hin.
    apply elem_of_cons in Hin as [->|Hin];
      [|apply list_elem_of_singleton in Hin as ->];
      split; apply (bool_decide_unpack _); vm_compute; exact I. }
  destruct (textToCopy_has_one_line_per_item (App.images dawn_and_dusk) Hnl)
    as (E & _ & _).
  rewrite E. vm_compute. reflexivity.
Defined.

(** ** Service calls *)

Lemma resumeLoops_calls (ls : list (list GenerationPromise)) : ∀ s,
  callsOf (resumeLoops ls s).2 = [].
Proof.
  induction ls as [|ps rest IH]; intros s; [reflexivity|].
  cbn [resumeLoops]. pose proof (resumeLoop_effects ps s) as H1.
  destruct (resumeLoop ps s) as [[l1 s1] e1]. cbn [fst snd] in *.
  specialize (IH s1). destruct (resumeLoops rest s1) as [[l2 s2] e2].
  cbn [fst snd] in *. now rewrite callsOf_app, H1, callsOf_ImagesUpdated, IH.
Qed.

Lemma callsOf_generateContent {A} (f : nat → A → GenerateContentRequest)
    (h0 : nat) (l : list A) :
  callsOf (imap (λ k x, GenerateContent (h0 + k) (f k x)) l)
  = imap (λ k x, ((h0 + k)%nat, f k x)) l.
Proof.
  revert h0 f. induction l as [|x l IH]; intros h0 f; [reflexivity|].
  cbn. f_equal.
  specialize (IH (S h0) (λ k, f (S k))).
  unfold callsOf in *.
  erewrite imap_ext; [rewrite IH|].
  - apply imap_ext. intros k y _. cbn. do 2 f_equal. lia.
  - intros k y _. cbn. do 2 f_equal. lia.
Qed.

(** X15. The service is called by generate-all and by nothing else:
    any event that makes a call is a generate-all in a state with a
    queued item, and it makes one call per queued item.  Answers,
    ingestion, copying, removing and clearing make none. *)
Theorem only_generate_all_calls_the_service (w : World) (ev : Event) :
  callsOf (step w ev).2 ≠ [] →
  ev = GenerateAllNames
  ∧ queuedImages (App.images (app w)) ≠ []
  ∧ length (callsOf (step w ev).2)
    = length (queuedImages (App.images (app w))).
Proof.
  intros Hcalls.
  assert (ev = GenerateAllNames) as ->.
  { destruct ev; try reflexivity; exfalso; apply Hcalls;
      try (apply step_other; [exact I | discriminate]).
    cbn [step]. unfold serviceSettled.
    pose proof (resumeLoops_calls
                  (fmap (M:=list) (fmap (M:=list) (settlePromise h o)) (loops w))
                  (app w)) as H.
    now destruct (resumeLoops _ _) as [[ls s] es]. }
  split; [reflexivity|].
  destruct (decide (queuedImages (App.images (app w)) = [])) as [Hq|Hq].
  { exfalso. apply Hcalls. cbn [step]. unfold handleGenerateAllNames.
    now rewrite Hq. }
  split; [exact Hq|].
  destruct (generateAll_start w Hq) as (_ & _ & -> & _).
  now rewrite callsOf_generateContent, length_imap.
Qed.

Lemma only_generate_all_calls_the_service_witness :
  GenerateAllNames = GenerateAllNames
  ∧ queuedImages (App.images (app two_queued)) ≠ []
  ∧ length (callsOf (step two_queued GenerateAllNames).2)
    = length (queuedImages (App.images (app two_queued))).
Proof.
  apply (only_generate_all_calls_the_service two_queued GenerateAllNames).
  vm_compute. discriminate.
Defined.

(** ** The in-progress flag and the Generate button *)

Lemma resumeLoops_flag (ls : list (list GenerationPromise)) : ∀ s,
  App.isLoading (resumeLoops ls s).1.2 = true →
  App.isLoading s = true
  ∧ length (resumeLoops ls s).1.1 = length ls.
Proof.
  induction ls as [|ps rest IH]; intros s Hs; [now split|].
  cbn [resumeLoops] in *.
  pose proof (resumeLoop_isLoading ps s) as H1.
  pose proof (resumeLoop_loops ps s) as H2.
  destruct (resumeLoop ps s) as [[l1 s1] e1]. cbn [fst snd] in *.
  specialize (IH s1).
  destruct (resumeLoops rest s1) as [[l2 s2] e2]. cbn [fst snd] in *.
  destruct (IH Hs) as [Hs1 Hlen].
  rewrite Hs1 in H1. rewrite length_app, Hlen, H2.
  destruct (awaitSettled ps).2; [discriminate|]. now split.
Qed.

Lemma step_flagNeedsLoop (w : World) (ev : Event) :
  flagNeedsLoop w → flagNeedsLoop (step w ev).1.
Proof.
  unfold flagNeedsLoop. intros Hw.
  assert (duringBatch ev → (∀ h o, ev ≠ ServiceSettled h o) →
          App.isLoading (app (step w ev).1) = true →
          loops (step w ev).1 ≠ []) as Hother.
  { intros Hd Hs. rewrite step_other_isLoading by done.
    assert (notGenerateAll ev) as Hg by (now destruct ev).
    destruct (step_other w ev Hg Hs) as (-> & _). exact Hw. }
  destruct ev; try (apply Hother; [exact I | discriminate]); clear Hother.
  - cbn [step]. unfold handleGenerateAllNames.
    destruct (queuedImages (App.images (app w))); [exact Hw|].
    cbn. intros _ E. now apply app_eq_nil in E as [_ E].
  - cbn [step]. destruct (serviceSettled_proj h o w) as [-> ->].
    intros Hs. apply resumeLoops_flag in Hs as [Hs Hlen].
    intros E. rewrite E, length_fmap in Hlen.
    apply (Hw Hs). now destruct (loops w).
  - cbn. discriminate.
Qed.

(** X16. In every state the application reaches, whatever the events,
    the in-progress flag is up only if a generation loop is still in
    flight; once no loop is left the flag is down. *)
Theorem flag_up_needs_a_loop_in_flight (evs : list Event) :
  App.isLoading (app (run initialWorld evs).1) = true →
  loops (run initialWorld evs).1 ≠ [].
Proof.
  assert (∀ w, flagNeedsLoop w → flagNeedsLoop (run w evs).1) as Hrun.
  { induction evs as [|ev evs IH]; intros w Hw; [exact Hw|].
    cbn [run]. pose proof (step_flagNeedsLoop w ev Hw) as H1.
    destruct (step w ev) as [w1 e1]. cbn [fst] in H1.
    specialize (IH w1 H1). now destruct (run w1 evs) as [w2 e2]. }
  apply Hrun. unfold flagNeedsLoop. discriminate.
Qed.

Lemma flag_up_needs_a_loop_in_flight_witness :
  loops (run initialWorld
           [FileChange (Some [a_png; b_png]);
            FilesSettled [read_a_ok; read_b_ok];
            GenerateAllNames;
            ServiceSettled 1 (ResponseText (JS.lit "Dusk"))]).1 ≠ [].
Proof.
  apply (flag_up_needs_a_loop_in_flight
           [FileChange (Some [a_png; b_png]);
            FilesSettled [read_a_ok; read_b_ok];
            GenerateAllNames;
            ServiceSettled 1 (ResponseText (JS.lit "Dusk"))]).
  reflexivity.
Defined.

Lemma queuedCount_queuedImages (s : App.t) :
  queuedCount s = length (queuedImages (App.images s)).
Proof.
  unfold queuedCount, queuedImages. f_equal.
  apply bool_filter_as_filter. intros img. apply bool_decide_eq_true.
Qed.

(** X17. When the Generate button is enabled as rendered, a click
    makes as many calls as the count shown on it, which is at least
    one; right after the click the button is disabled and the count of
    queued items is zero. *)
Theorem enabled_generate_button_makes_queuedCount_calls (w : World) :
  generateDisabled (app w) = false →
  (0 < queuedCount (app w))%nat
  ∧ length (callsOf (step w GenerateAllNames).2) = queuedCount (app w)
  ∧ queuedCount (app (step w GenerateAllNames).1) = 0%nat
  ∧ generateDisabled (app (step w GenerateAllNames).1) = true.
Proof.
  unfold generateDisabled. intros Hd.
  apply orb_false_iff in Hd as [Hq _].
  apply Nat.eqb_neq in Hq.
  assert (queuedImages (App.images (app w)) ≠ []) as Hne.
  { intros E. apply Hq. now rewrite queuedCount_queuedImages, E. }
  destruct (generateAll_start w Hne) as (Himg & Hload & Hcalls & _).
  split; [lia|]. split.
  - now rewrite Hcalls, callsOf_generateContent, length_imap,
      queuedCount_queuedImages.
  - rewrite Hload, orb_true_r, queuedCount_queuedImages, Himg,
      flipQueued_none_queued. now split.
Qed.

Lemma enabled_generate_button_makes_queuedCount_calls_witness :
  (0 < queuedCount (app two_queued))%nat
  ∧ length (callsOf (step two_queued GenerateAllNames).2)
    = queuedCount (app two_queued)
  ∧ queuedCount (app (step two_queued GenerateAllNames).1) = 0%nat
  ∧ generateDisabled (app (step two_queued GenerateAllNames).1) = true.
Proof.
  apply (enabled_generate_button_makes_queuedCount_calls two_queued).
  reflexivity.
Defined.

(** ** Handles of the service calls *)

Lemma filter_nil_iff_none (l : list GenerationPromise) (h : nat)
    (o : ServiceOutcome) :
  filter (λ p, settled p ≠ settled (settlePromise h o p)) l = []
  ↔ ∀ q, q ∈ l → handle q = h → settled q = settled (settlePromise h o q).
Proof.
  induction l as [|p l IH].
  { split; [intros _ q Hq; now apply not_elem_of_nil in Hq | reflexivity]. }
  rewrite filter_cons. destruct (decide _) as [Hch|Hsame].
  - split; [discriminate|]. intros Hall. exfalso. apply Hch.
    destruct (decide (handle p = h)) as [E|E]; [apply Hall; [left | exact E]|].
    unfold settlePromise. now destruct (decide (handle p = h)).
  - rewrite IH. split.
    + intros Hall q Hq Hqh. apply elem_of_cons in Hq as [->|Hq];
        [now apply dec_stable | now apply Hall].
    + intros Hall q Hq. apply Hall. now right.
Qed.

Section Handles.

Implicit Types (w : World) (ev : Event) (evs : list Event)
  (ls : list (list GenerationPromise)) (s : App.t).

Lemma imap_handles {A} (h0 : nat) (l : list A) :
  imap (λ k _, (h0 + k)%nat) l = seq h0 (length l).
Proof.
  rewrite (imap_seq l (λ n, n) h0). apply list_fmap_id.
Qed.

Lemma generateAll_handles w :
  queuedImages (App.images (app w)) ≠ [] →
  ∃ promises,
    loops (step w GenerateAllNames).1 = loops w ++ [promises]
    ∧ handle <$> promises
      = seq (nextHandle w) (length (queuedImages (App.images (app w))))
    ∧ (callsOf (step w GenerateAllNames).2).*1
      = seq (nextHandle w) (length (queuedImages (App.images (app w))))
    ∧ nextHandle (step w GenerateAllNames).1
      = (nextHandle w + length (queuedImages (App.images (app w))))%nat.
Proof.
  intros Hq. destruct (generateAll_start w Hq) as (_ & _ & Hcalls & _).
  rewrite Hcalls, callsOf_generateContent. clear Hcalls.
  cbn [step]. unfold handleGenerateAllNames.
  destruct (queuedImages (App.images (app w))) as [|img q] eqn:E; [done|].
  cbn [fst loops nextHandle]. eexists. split; [reflexivity|].
  rewrite !fmap_imap. repeat split; apply imap_handles.
Qed.

Lemma mjoin_fmap_fmap {A B} (f : A → B) (ll : list (list A)) :
  mjoin (fmap (M:=list) (fmap (M:=list) f) ll) = f <$> mjoin ll.
Proof.
  induction ll as [|l ll IH]; [reflexivity|].
  change ((f <$> l) ++ mjoin (fmap (M:=list) (fmap (M:=list) f) ll)
          = f <$> (l ++ mjoin ll)).
  now rewrite IH, fmap_app.
Qed.

Lemma resumeLoop_remaining (ps : list GenerationPromise) s :
  mjoin (resumeLoop ps s).1.1 `sublist_of` ps.
Proof.
  rewrite resumeLoop_loops.
  destruct (awaitSettled_split ps) as (m & Hd & _). rewrite Hd.
  destruct (drop m ps) as [|p ps'] eqn:E; [apply sublist_nil_l|].
  cbn. rewrite app_nil_r, <- E. apply sublist_drop.
Qed.

Lemma resumeLoops_remaining ls : ∀ s,
  mjoin (resumeLoops ls s).1.1 `sublist_of` mjoin ls.
Proof.
  induction ls as [|ps rest IH]; intros s; [reflexivity|].
  cbn [resumeLoops]. pose proof (resumeLoop_remaining ps s) as H1.
  destruct (resumeLoop ps s) as [[l1 s1] e1]. cbn [fst snd] in *.
  specialize (IH s1). destruct (resumeLoops rest s1) as [[l2 s2] e2].
  cbn [fst snd] in *. rewrite join_app. now apply sublist_app.
Qed.

Lemma step_other_nextHandle w ev :
  notGenerateAll ev → nextHandle (step w ev).1 = nextHandle w.
Proof.
  intros Hg. destruct ev; try done; cbn.
  - unfold serviceSettled. now destruct (resumeLoops _ _) as [[l1 s1] e1].
  - unfold handleCopyAll. now destruct (JS.truthy _).
Qed.

Lemma step_handles w ev :
  handlesInv w →
  handlesInv (step w ev).1
  ∧ (nextHandle w ≤ nextHandle (step w ev).1)%nat
  ∧ NoDup (callsOf (step w ev).2).*1
  ∧ ∀ h, h ∈ (callsOf (step w ev).2).*1 →
         (nextHandle w ≤ h < nextHandle (step w ev).1)%nat.
Proof.
  intros [Hnd Hlt].
  assert (callsOf (step w ev).2 = [] → loops (step w ev).1 = loops w →
          nextHandle (step w ev).1 = nextHandle w →
          handlesInv (step w ev).1
          ∧ (nextHandle w ≤ nextHandle (step w ev).1)%nat
          ∧ NoDup (callsOf (step w ev).2).*1
          ∧ ∀ h, h ∈ (callsOf (step w ev).2).*1 →
                 (nextHandle w ≤ h < nextHandle (step w ev).1)%nat) as Hsame.
  { intros -> Hl Hn. unfold handlesInv. rewrite Hl, Hn.
    split; [now split|]. split; [lia|]. split; [apply NoDup_nil_2|].
    intros h Hh. inversion Hh. }
  assert ((∃ h o, ev = ServiceSettled h o) ∨ ev = GenerateAllNames
          ∨ (notGenerateAll ev ∧ ∀ h o, ev ≠ ServiceSettled h o))
    as [(h & o & ->)|[->|[Hg Hs]]].
  { destruct ev; eauto; right; right; (split; [exact I | discriminate]). }
  - pose proof (step_other_nextHandle w (ServiceSettled h o) I) as Hn.
    assert (callsOf (step w (ServiceSettled h o)).2 = []) as Hc.
    { cbn [step]. unfold serviceSettled.
      pose proof (resumeLoops_calls
                    (fmap (M:=list) (fmap (M:=list) (settlePromise h o))
                       (loops w)) (app w)) as H.
      now destruct (resumeLoops _ _) as [[ls s] es]. }
    rewrite Hc, Hn. cbn [step].
    destruct (serviceSettled_proj h o w) as [_ Hl].
    pose proof (resumeLoops_remaining
                  (fmap (M:=list) (fmap (M:=list) (settlePromise h o))
                     (loops w)) (app w)) as Hsub.
    rewrite <- Hl, mjoin_fmap_fmap in Hsub.
    assert (handle <$> (settlePromise h o <$> mjoin (loops w))
            = handle <$> mjoin (loops w)) as Hh.
    { rewrite <- list_fmap_compose. apply list_fmap_ext.
      intros _ p _. apply settlePromise_handle. }
    split; [split|].
    + eapply sublist_NoDup; [exact Hnd|]. rewrite <- Hh.
      now apply fmap_sublist.
    + intros p Hp. eapply elem_of_sublist in Hp; [|exact Hsub].
      apply list_elem_of_fmap in Hp as (p0 & -> & Hp0).
      rewrite settlePromise_handle.
      change (nextHandle (serviceSettled h o w).1)
        with (nextHandle (step w (ServiceSettled h o)).1).
      rewrite Hn. now apply Hlt.
    + split; [lia|]. split; [apply NoDup_nil_2|].
      intros k Hk. inversion Hk.
  - destruct (decide (queuedImages (App.images (app w)) = [])) as [Hq|Hq].
    { apply Hsame; cbn [step]; unfold handleGenerateAllNames;
        now rewrite Hq. }
    destruct (generateAll_handles w Hq) as (promises & Hl & Hh & Hc & Hn).
    unfold handlesInv. rewrite Hl, Hc, Hn, join_app, fmap_app.
    cbn [mjoin list_join]. rewrite app_nil_r, Hh.
    split; [split|].
    + apply NoDup_app. split; [exact Hnd|]. split; [|apply NoDup_seq].
      intros k Hk Hseq. apply elem_of_seq in Hseq.
      apply list_elem_of_fmap in Hk as (p & -> & Hp).
      specialize (Hlt p Hp). lia.
    + intros p Hp. apply elem_of_app in Hp as [Hp|Hp].
      * specialize (Hlt p Hp). lia.
      * assert (handle p ∈ handle <$> promises) as Hin
          by (now apply list_elem_of_fmap_2).
        rewrite Hh in Hin. apply elem_of_seq in Hin. lia.
    + split; [lia|]. split; [apply NoDup_seq|].
      intros k Hk. apply elem_of_seq in Hk. lia.
  - destruct (step_other w ev Hg Hs) as (Hl & _ & Hc).
    apply Hsame; [exact Hc | exact Hl | now apply step_other_nextHandle].
Qed.

Lemma run_handles evs : ∀ w,
  handlesInv w →
  handlesInv (run w evs).1
  ∧ (nextHandle w ≤ nextHandle (run w evs).1)%nat
  ∧ NoDup (callsOf (run w evs).2).*1
  ∧ ∀ h, h ∈ (callsOf (run w evs).2).*1 →
         (nextHandle w ≤ h < nextHandle (run w evs).1)%nat.
Proof.
  induction evs as [|ev evs IH]; intros w Hw.
  { cbn. split; [exact Hw|]. split; [lia|]. split; [apply NoDup_nil_2|].
    intros h Hh. inversion Hh. }
  cbn [run]. destruct (step_handles w ev Hw) as (Hw1 & Hn1 & Hnd1 & Hr1).
  destruct (step w ev) as [w1 e1]. cbn [fst snd] in *.
  destruct (IH w1 Hw1) as (Hw2 & Hn2 & Hnd2 & Hr2).
  destruct (run w1 evs) as [w2 e2]. cbn [fst snd] in *.
  rewrite callsOf_app, fmap_app.
  split; [exact Hw2|]. split; [lia|]. split.
  - apply NoDup_app. split; [exact Hnd1|]. split; [|exact Hnd2].
    intros h H1 H2. specialize (Hr1 h H1). specialize (Hr2 h H2). lia.
  - intros h Hh. apply elem_of_app in Hh as [Hh|Hh].
    + specialize (Hr1 h Hh). lia.
    + specialize (Hr2 h Hh). lia.
Qed.

(** The handles name the calls as the runtime's promises do: along any
    run from the initial state no two service calls carry the same
    handle, and in the state reached the promises in flight await
    pairwise distinct calls, so the answer to a call settles at most
    one promise. *)
Theorem service_calls_have_distinct_handles (evs : list Event) :
  NoDup (callsOf (run initialWorld evs).2).*1
  ∧ NoDup (handle <$> mjoin (loops (run initialWorld evs).1))
  ∧ ∀ h o,
      (length (filter (λ p, settled p ≠ settled (settlePromise h o p))
                 (mjoin (loops (run initialWorld evs).1))) ≤ 1)%nat.
Proof.
  destruct (run_handles evs initialWorld) as ([Hnd _] & _ & Hc & _).
  { split; [constructor | intros p Hp; now apply not_elem_of_nil in Hp]. }
  split; [exact Hc|]. split; [exact Hnd|].
  intros h o.
  induction (mjoin (loops (run initialWorld evs).1)) as [|p l IH];
    [cbn; lia|].
  cbn in Hnd. apply NoDup_cons in Hnd as [Hp Hl].
  rewrite filter_cons. destruct (decide _) as [Hch|_]; [|now apply IH].
  assert (handle p = h) as Hh.
  { unfold settlePromise in Hch. destruct (decide (handle p = h)); [done|].
    now destruct Hch. }
  rewrite (proj2 (filter_nil_iff_none l h o)); [cbn; lia|].
  intros q Hq Hqh. exfalso. apply Hp. rewrite Hh, <- Hqh.
  now apply list_elem_of_fmap_2.
Qed.

End Handles.

(** ** The optional fields of an item *)

Section Fields.

Implicit Types (w : World) (ev : Event) (evs : list Event)
  (rs : list GenerationResult) (imgs : list ProcessedImage.t)
  (img : ProcessedImage.t) (used : list jsstring).

Lemma filePromise_fresh (r : FileRead) img :
  filePromise r = inl img → freshlyQueued img.
Proof.
  unfold filePromise. destruct (read_result r); [|discriminate].
  intros [= <-]. repeat split.
Qed.

Lemma enqueuedBy_fresh ev img : img ∈ enqueuedBy ev → freshlyQueued img.
Proof.
  destruct ev; cbn; try (intros H; now inversion H).
  - destruct (promiseAll _) as [l|] eqn:E; [|intros H; now inversion H].
    intros Hin. apply (promiseAll_resolves _ _ E) in Hin.
    apply list_elem_of_fmap in Hin as (r & Hr & _).
    now apply (filePromise_fresh r).
  - destruct (promiseAll _) as [results|] eqn:E; [|intros H; now inversion H].
    unfold successfulFetches. intros Hin.
    apply list_elem_of_omap in Hin as ([img0|v] & Hin & [= <-]).
    apply (promiseAll_resolves _ _ E) in Hin.
    apply list_elem_of_fmap in Hin as (u & Hu & _).
    unfold urlPromise in Hu. destruct (JS.isWellFormed (url u)); [|discriminate].
    injection Hu as Hu. symmetry in Hu.
    apply urlPromise_resolves_iff in Hu
      as (_ & r & ct & d & _ & _ & _ & _ & _ & ->).
    repeat split.
Qed.

Lemma freshlyQueued_fields img : freshlyQueued img → fieldsMatchStatus img.
Proof.
  unfold freshlyQueued, fieldsMatchStatus. intros (-> & Hn & He). now split.
Qed.

Lemma applyAll_elem_strong rs :
  NoDup (result_id <$> rs) →
  ∀ imgs img', img' ∈ applyAll rs imgs →
    ∃ img, img ∈ imgs
      ∧ (img' = img
         ∨ ∃ r, r ∈ rs ∧ ProcessedImage.id img = result_id r
                ∧ img' = spreadResult img r).
Proof.
  induction rs as [|r rs IH]; intros Hnd imgs img' Hin.
  { exists img'. auto. }
  cbn in Hnd. apply NoDup_cons in Hnd as [Hr Hnd].
  cbn in Hin. apply (IH Hnd) in Hin as (img1 & Hin1 & Hcase).
  apply list_elem_of_fmap in Hin1 as (img & -> & Hin).
  exists img. split; [exact Hin|].
  destruct (decide (ProcessedImage.id img = result_id r)) as [E|E].
  - destruct Hcase as [->|(r' & Hr' & E' & _)].
    + right. exists r. split; [left | now split].
    + exfalso. apply Hr. rewrite spreadResult_id in E'. rewrite E'.
      now apply list_elem_of_fmap_2.
  - destruct Hcase as [->|(r' & Hr' & E' & ->)]; [now left|].
    right. exists r'. split; [now right | now split].
Qed.

Lemma respond_results used w h o :
  worldInv used w →
  ∃ rs,
    App.images (app (step w (ServiceSettled h o)).1)
    = applyAll rs (App.images (app w))
    ∧ NoDup (result_id <$> rs)
    ∧ ∀ img, img ∈ App.images (app w) →
             ProcessedImage.id img ∈ result_id <$> rs →
             ProcessedImage.status img = generating.
Proof.
  intros [I1 I2 I3 I4 I5 I6]. cbn [step].
  destruct (serviceSettled_proj h o w) as [Happ _].
  set (ls := fmap (M:=list) (fmap (M:=list) (settlePromise h o)) (loops w))
    in *.
  assert (∀ ps p r, ps ∈ ls → p ∈ ps → settled p = Some r →
            result_id r = promise_id p) as Hcons.
  { intros ps' p' r Hps' Hp' Hs.
    apply list_elem_of_fmap in Hps' as (ps & -> & Hps).
    apply list_elem_of_fmap in Hp' as (p & -> & Hp).
    rewrite settlePromise_id. eapply settlePromise_result; [|exact Hs].
    intros r'. now apply (I6 ps). }
  destruct (resumeLoops_spec ls (app w) Hcons) as (rs & Himg & Hperm & _).
  unfold ls in Hperm. rewrite pendingOf_settle in Hperm.
  pose proof I2 as Hnd. rewrite <- Hperm in Hnd.
  apply NoDup_app in Hnd as (Hnd & _ & _).
  exists rs. rewrite Happ, Himg. split; [reflexivity|]. split; [exact Hnd|].
  intros img Hin Hid. apply I3; [exact Hin|].
  rewrite <- Hperm. apply elem_of_app. now left.
Qed.

Lemma spreadResult_fields img (r : GenerationResult) :
  ProcessedImage.status img = generating → fieldsMatchStatus img →
  fieldsMatchStatus (spreadResult img r).
Proof.
  unfold fieldsMatchStatus. intros -> [Hn He].
  destruct r; cbn; rewrite ?Hn, ?He; now split.
Qed.

Lemma step_fields used w ev :
  worldInv used w →
  Forall fieldsMatchStatus (App.images (app w)) →
  Forall fieldsMatchStatus (App.images (app (step w ev).1)).
Proof.
  intros Hinv Hf.
  assert (match ev with
          | GenerateAllNames | ServiceSettled _ _ | RemoveImage _
          | ClearAll => False
          | _ => True
          end → Forall fieldsMatchStatus (App.images (app (step w ev).1)))
    as Happend.
  { intros Hev. destruct (step_appends w ev Hev) as [_ ->].
    apply Forall_app_2; [exact Hf|]. apply Forall_forall. intros img Hin.
    now apply freshlyQueued_fields, (enqueuedBy_fresh ev). }
  destruct ev; try (apply Happend; exact I); clear Happend.
  - destruct (decide (queuedImages (App.images (app w)) = [])) as [Hq|Hq].
    { cbn [step]. unfold handleGenerateAllNames. now rewrite Hq. }
    destruct (generateAll_start w Hq) as (-> & _).
    apply Forall_forall. intros img' Hin.
    apply list_elem_of_fmap in Hin as (img & -> & Hin).
    rewrite Forall_forall in Hf. specialize (Hf img Hin).
    destruct (decide _) as [E|E]; [|exact Hf].
    unfold fieldsMatchStatus in *. rewrite E in Hf. exact Hf.
  - destruct (respond_results used w h o Hinv) as (rs & -> & Hnd & Hgen).
    apply Forall_forall. intros img' Hin.
    apply (applyAll_elem_strong rs Hnd) in Hin as (img & Hin & Hcase).
    rewrite Forall_forall in Hf.
    destruct Hcase as [->|(r & Hr & E & ->)]; [now apply Hf|].
    apply spreadResult_fields; [|now apply Hf].
    apply Hgen; [exact Hin|]. rewrite E. now apply list_elem_of_fmap_2.
  - cbn. rewrite Forall_forall in *. intros img Hin.
    apply list_elem_of_filter in Hin as [_ Hin]. now apply Hf.
  - cbn. constructor.
Qed.

Lemma run_fields evs : ∀ used w,
  worldInv used w →
  Forall fieldsMatchStatus (App.images (app w)) →
  NoDup (drawnIds evs) →
  (∀ i, i ∈ drawnIds evs → i ∉ used) →
  Forall fieldsMatchStatus (App.images (app (run w evs).1)).
Proof.
  induction evs as [|ev evs IH]; intros used w Hinv Hf Hnd Hfresh;
    [exact Hf|].
  rewrite drawnIds_cons in Hnd, Hfresh.
  apply NoDup_app in Hnd as (Hnd1 & Hdisj & Hnd2).
  destruct (step_inv used w ev Hinv Hnd1) as (Hinv1 & _).
  { intros i Hi. apply Hfresh, elem_of_app. now left. }
  pose proof (step_fields used w ev Hinv Hf) as Hf1.
  cbn [run]. destruct (step w ev) as [w1 e1]. cbn [fst] in *.
  assert (Forall fieldsMatchStatus (App.images (app (run w1 evs).1))) as H.
  { apply (IH _ w1 Hinv1 Hf1 Hnd2).
    intros i Hi Hu. apply elem_of_app in Hu as [Hu|Hu].
    - now apply (Hdisj i).
    - apply (Hfresh i); [apply elem_of_app; now right | exact Hu]. }
  now destruct (run w1 evs) as [w2 e2].
Qed.

(** X18. Along any run from the initial state in which the ids drawn
    for the appended items are pairwise distinct, every item of the
    list carries a suggested name exactly when its status is completed
    and an error message exactly when its status is error; a queued or
    generating item carries neither. *)
Theorem optional_fields_match_status (evs : list Event) :
  NoDup (drawnIds evs) →
  ∀ img, img ∈ App.images (app (run initialWorld evs).1) →
    (ProcessedImage.suggestedName img ≠ None
     ↔ ProcessedImage.status img = completed)
    ∧ (ProcessedImage.error img ≠ None
       ↔ ProcessedImage.status img = error).
Proof.
  intros Hnd img Hin.
  assert (Forall fieldsMatchStatus (App.images (app (run initialWorld evs).1)))
    as H.
  { apply (run_fields evs [] initialWorld worldInv_initial);
      [apply Forall_nil_2 | exact Hnd | intros i _; apply not_elem_of_nil]. }
  rewrite Forall_forall in H. pose proof (H img Hin) as Hf.
  unfold fieldsMatchStatus in Hf.
  destruct (ProcessedImage.status img); destruct Hf as [Hn He];
    split; split; try done; intros; try congruence.
Qed.

Lemma optional_fields_match_status_witness :
  (ProcessedImage.suggestedName a_png_failed ≠ None
   ↔ ProcessedImage.status a_png_failed = completed)
  ∧ (ProcessedImage.error a_png_failed ≠ None
     ↔ ProcessedImage.status a_png_failed = error).
Proof.
  apply (optional_fields_match_status a_session).
  - apply (bool_decide_unpack _). vm_compute. exact I.
  - apply list_elem_of_lookup. exists 0%nat. reflexivity.
Defined.

End Fields.

(** ** Generate all: calls, flag and results *)

Section BatchResults.

Implicit Types (ps : list GenerationPromise) (rs : list GenerationResult)
  (w : World) (s : App.t) (ev : Event) (evs seen : list Event)
  (ids : list jsstring) (imgs : list ProcessedImage.t).
















End BatchResults.



